(** * Status aggregation and change notification of the cluster controller

    A shallow embedding of [cluster-controller/status.go]: the pull
    detection [isPulling], the classifier [getServiceStatus], the sandbox
    aggregator [Get] and the watcher registry ([Watch], [notifyWatchers],
    [removeWatcher]), followed by the properties proved about them.  The
    handlers of [newStatusFetcher] and the identity code of
    [pkg/auth/auth.go] ([ParseIDToken], [dnsCompliantHash]) come with
    them. *)

From Stdlib Require Import ZArith String List Lia.
From stdpp Require Import base option gmap strings list fin_maps.
From Stdlib Require Import Ascii.

Local Open Scope string_scope.
Local Open Scope list_scope.
Local Open Scope Z_scope.

(** Go's [==] on strings. *)
Local Notation "a =s? b" := (String.eqb a b) (at level 70, no associativity).

(** ** Values of the platform API that the code reads *)

(** [metav1.Time]: an instant, counted from the zero time (January 1, year 1,
    00:00:00 UTC).  The cached objects are decoded from the wire, so they
    carry no monotonic clock reading and [Before] compares instants. *)
Module Time.
Definition t := Z.
Definition zero : t := 0.
Definition IsZero (x : t) : bool := x =? 0.
Definition Before (x u : t) : bool := x <? u.
End Time.

(** [corev1.ObjectReference], the fields compared by [isPulling]. *)
Record ObjectReference := mkObjectReference {
  or_Kind : string;
  or_Namespace : string;
  or_Name : string;
  or_FieldPath : string
}.

(** [corev1.Event]; [ev_Namespace] is the namespace of the event itself. *)
Record Event := mkEvent {
  ev_Namespace : string;
  ev_InvolvedObject : ObjectReference;
  ev_Reason : string;
  ev_LastTimestamp : Time.t
}.

Record ContainerStateWaiting := mkWaiting {
  w_Reason : string;
  w_Message : string
}.

Record ContainerStateRunning := mkRunning {
  r_StartedAt : Time.t
}.

Record ContainerStateTerminated := mkTerminated {
  t_Reason : string;
  t_Message : string
}.

(** [corev1.ContainerState]: three pointers, [None] for nil. *)
Record ContainerState := mkContainerState {
  Waiting : option ContainerStateWaiting;
  Running : option ContainerStateRunning;
  Terminated : option ContainerStateTerminated
}.

(** [corev1.ContainerStatus]; [RestartCount] is an [int32]. *)
Record ContainerStatus := mkContainerStatus {
  cs_Name : string;
  cs_State : ContainerState;
  cs_Ready : bool;
  cs_RestartCount : Z
}.

(** [corev1.PodPhase] and [corev1.NamespacePhase] are string types. *)
Definition PodPending := "Pending".
Definition PodRunning := "Running".
Definition PodSucceeded := "Succeeded".
Definition PodFailed := "Failed".
Definition NamespaceTerminating := "Terminating".

(** [corev1.Pod], the fields read by [Get] and [getServiceStatus]. *)
Record Pod := mkPod {
  pod_Namespace : string;
  pod_Name : string;
  pod_Labels : gmap string string;
  pod_InitContainerStatuses : list ContainerStatus;
  pod_ContainerStatuses : list ContainerStatus;
  pod_Phase : string
}.

Record Namespace := mkNamespace {
  ns_Name : string;
  ns_Phase : string
}.

(** [labels.Selector], as built by the two call sites. *)
Inductive Selector :=
  | Everything
  | SelectorFromSet (set : gmap string string).

(** ** The status vocabulary ([cluster.ServicePhase], [cluster.SandboxStatus]) *)

Inductive ServicePhase :=
  | ServicePhase_UNKNOWN
  | ServicePhase_INITIALIZING_VOLUMES
  | ServicePhase_WAIT_DEPENDS_ON
  | ServicePhase_WAIT_SYNC_BIND
  | ServicePhase_PENDING
  | ServicePhase_RUNNING
  | ServicePhase_UNHEALTHY
  | ServicePhase_EXITED.

Record ServiceStatus := mkServiceStatus {
  Phase : ServicePhase;
  Msg : string;
  HasStarted : bool
}.

Inductive SandboxPhase :=
  | SandboxStatus_DOES_NOT_EXIST
  | SandboxStatus_TERMINATING
  | SandboxStatus_RUNNING.

(** The [Services] map of a status that does not set it is nil, which reads
    as the empty map. *)
Record SandboxStatus := mkSandboxStatus {
  sb_Phase : SandboxPhase;
  sb_Services : gmap string ServiceStatus
}.

Definition imagePullFailureMsg : string :=
  "Failed to pull image. Make sure that the image exists, " +:+
  "and that Blimp has access to it.".
Definition imagePullingMsg : string := "Pulling image".

(** A result of a lister call: the value, or the platform's error. *)
Inductive result (E A : Type) :=
  | Ok (a : A)
  | Err (e : E).
Arguments Ok {E A} a.
Arguments Err {E A} e.

(** ** Channels

    A [chan struct{}] carries no payload: its state is its capacity and the
    number of buffered signals. *)
Record Chan := mkChan {
  chan_cap : nat;
  chan_len : nat
}.

Definition make_chan (cap : nat) : Chan := mkChan cap 0.

(** A blocking send: [None] when the buffer is full and the sender would
    have to wait. *)
Definition chan_send (c : Chan) : option Chan :=
  if (chan_len c <? chan_cap c)%nat
  then Some (mkChan (chan_cap c) (S (chan_len c)))
  else None.

(** [select { case c <- struct{}{}: default: }]. *)
Definition select_send_default (c : Chan) : Chan :=
  match chan_send c with
  | Some c' => c'
  | None => c
  end.

(** A blocking receive: [None] when nothing is buffered. *)
Definition chan_recv (c : Chan) : option Chan :=
  match chan_len c with
  | O => None
  | S n => Some (mkChan (chan_cap c) n)
  end.

(** Go's [int] on the 64-bit targets the controller is built for: [idCtr++]
    wraps around. *)
Definition int_bits : Z := 64.
Definition wrap_int (z : Z) : Z :=
  (z + 2 ^ (int_bits - 1)) mod 2 ^ int_bits - 2 ^ (int_bits - 1).

(** ** What an informer hands to its handlers

    The handlers take a value of type [interface{}].  It may be a
    [runtime.Object], with or without the object metadata that
    [meta.Accessor] looks for, or any other value, such as the tombstone
    that stands for a missed deletion. *)
Record ObjectMeta := mkObjectMeta {
  om_Namespace : string;
  om_Name : string
}.

Inductive intf :=
  | RuntimeObject (metadata : option ObjectMeta)
  | OtherValue.

(** ** What the file takes from the rest of the program

    The errors of the platform's listers with [kerrors.IsNotFound], and the
    constants of package [main] and of the generated package [cluster] that
    are declared in other files: the names of the init containers and the
    zero values of the two phase enumerations. *)
Class Externals := {
  kerror : Type;
  IsNotFound : kerror → bool;
  ContainerNameCopyBusybox : string;
  ContainerNameCopyVCP : string;
  ContainerNameInitializeVolumeFromImage : string;
  ContainerNameWaitDependsOn : string;
  ContainerNameWaitInitialSync : string;
  ServicePhase_zero : ServicePhase;
  SandboxPhase_zero : SandboxPhase
}.

Section StatusFetcher.

Context `{Externals}.

(** Modelled from the spec: [errors.WithContext] of [pkg/errors], whose
    source is missing.  A lookup or list error is wrapped with the context
    of the operation and handed to the caller. *)
Inductive error :=
  | WithContext (context : string) (err : kerror).

(** [statusFetcher].  The listers are interfaces.  [chans] is the store of
    the channels made by [Watch]: the [watchers] map and the subscribers
    refer to one and the same channel by its index. *)
Record statusFetcher := mkStatusFetcher {
  podLister : string → Selector → result kerror (list Pod);
  eventsLister : string → Selector → result kerror (list Event);
  namespaceLister : string → result kerror Namespace;
  watchers : gmap string (gmap Z nat);
  idCtr : Z;
  chans : list Chan
}.

(** *** [isPulling] *)

(** The condition of the [continue] in the loop over the events. *)
Definition event_skipped (namespace pod fieldPath : string) (event : Event) : bool :=
  negb (or_Kind (ev_InvolvedObject event) =s? "Pod")
  || negb (or_Namespace (ev_InvolvedObject event) =s? namespace)
  || negb (or_Name (ev_InvolvedObject event) =s? pod)
  || negb (or_FieldPath (ev_InvolvedObject event) =s? fieldPath).

(** One iteration of the loop; the state is [(pullStarted, pullCompleted)]. *)
Definition pull_step (namespace pod fieldPath : string)
    (acc : Time.t * Time.t) (event : Event) : Time.t * Time.t :=
  let '(pullStarted, pullCompleted) := acc in
  if event_skipped namespace pod fieldPath event then acc
  else if ev_Reason event =s? "Pulling" then
    if Time.IsZero pullStarted || Time.Before pullStarted (ev_LastTimestamp event)
    then (ev_LastTimestamp event, pullCompleted) else acc
  else if ev_Reason event =s? "Pulled" then
    if Time.IsZero pullCompleted || Time.Before pullCompleted (ev_LastTimestamp event)
    then (pullStarted, ev_LastTimestamp event) else acc
  else acc.

Definition pull_times (namespace pod fieldPath : string) (events : list Event)
    : Time.t * Time.t :=
  fold_left (pull_step namespace pod fieldPath) events (Time.zero, Time.zero).

Definition isPulling (sf : statusFetcher) (namespace pod fieldPath : string) : bool :=
  match eventsLister sf namespace Everything with
  | Err _ => false
  | Ok events =>
      let '(pullStarted, pullCompleted) := pull_times namespace pod fieldPath events in
      if Time.IsZero pullStarted then false
      else Time.IsZero pullCompleted || Time.Before pullCompleted pullStarted
  end.

(** *** [getServiceStatus] *)

Definition isImagePullFailure (cs : ContainerStatus) : bool :=
  match Waiting (cs_State cs) with
  | Some w => (w_Reason w =s? "ErrImagePull") || (w_Reason w =s? "ImagePullBackOff")
  | None => false
  end.

(** The [switch c.Name] at the head of the loop over the init containers;
    without a matching case [phase] keeps its zero value. *)
Definition init_phase (name : string) : ServicePhase :=
  if (name =s? ContainerNameCopyBusybox) || (name =s? ContainerNameCopyVCP)
     || (name =s? ContainerNameInitializeVolumeFromImage)
  then ServicePhase_INITIALIZING_VOLUMES
  else if name =s? ContainerNameWaitDependsOn then ServicePhase_WAIT_DEPENDS_ON
  else if name =s? ContainerNameWaitInitialSync then ServicePhase_WAIT_SYNC_BIND
  else ServicePhase_zero.

(** The body of the loop over the init containers: [None] is [continue],
    [Some st] is [return st]. *)
Definition init_step (sf : statusFetcher) (pod : Pod) (c : ContainerStatus)
    : option ServiceStatus :=
  let phase := init_phase (cs_Name c) in
  match Terminated (cs_State c) with
  | Some t =>
      if t_Reason t =s? "Completed" then None
      else Some (mkServiceStatus phase
                   ("Unexpected system error: " +:+ t_Message t) false)
  | None =>
      if cs_Name c =s? ContainerNameInitializeVolumeFromImage then
        if isImagePullFailure c
        then Some (mkServiceStatus ServicePhase_PENDING imagePullFailureMsg false)
        else if isPulling sf (pod_Namespace pod) (pod_Name pod)
                  ("spec.initContainers{" +:+ ContainerNameInitializeVolumeFromImage
                   +:+ "}")
        then Some (mkServiceStatus ServicePhase_PENDING imagePullingMsg false)
        else Some (mkServiceStatus phase "" false)
      else Some (mkServiceStatus phase "" false)
  end.

Fixpoint init_loop (sf : statusFetcher) (pod : Pod) (cs : list ContainerStatus)
    : option ServiceStatus :=
  match cs with
  | [] => None
  | c :: rest =>
      match init_step sf pod c with
      | Some st => Some st
      | None => init_loop sf pod rest
      end
  end.

(** The [switch] on the state of the single main container; [None] when no
    case applies and control falls out of the [if]. *)
Definition container_status (sf : statusFetcher) (pod : Pod) (cs : ContainerStatus)
    : option ServiceStatus :=
  match Running (cs_State cs), Waiting (cs_State cs), Terminated (cs_State cs) with
  | Some _, _, _ =>
      if negb (cs_Ready cs)
      then Some (mkServiceStatus ServicePhase_UNHEALTHY "" true)
      else Some (mkServiceStatus ServicePhase_RUNNING "" true)
  | None, Some w, _ =>
      if isImagePullFailure cs
      then Some (mkServiceStatus ServicePhase_PENDING imagePullFailureMsg false)
      else if isPulling sf (pod_Namespace pod) (pod_Name pod)
                ("spec.containers{" +:+ cs_Name cs +:+ "}")
      then Some (mkServiceStatus ServicePhase_PENDING imagePullingMsg
                   (0 <? cs_RestartCount cs))
      else Some (mkServiceStatus ServicePhase_PENDING (w_Message w)
                   (0 <? cs_RestartCount cs))
  | None, None, Some t =>
      Some (mkServiceStatus ServicePhase_EXITED (t_Message t) true)
  | None, None, None => None
  end.

(** The fallback [switch pod.Status.Phase]. *)
Definition phase_fallback (phase : string) : ServiceStatus :=
  if phase =s? PodRunning then mkServiceStatus ServicePhase_RUNNING "" false
  else if phase =s? PodPending then mkServiceStatus ServicePhase_PENDING "" false
  else if (phase =s? PodSucceeded) || (phase =s? PodFailed)
  then mkServiceStatus ServicePhase_EXITED "" false
  else mkServiceStatus ServicePhase_UNKNOWN "" false.

Definition getServiceStatus (sf : statusFetcher) (pod : Pod) : ServiceStatus :=
  match init_loop sf pod (pod_InitContainerStatuses pod) with
  | Some st => st
  | None =>
      let detailed :=
        match pod_ContainerStatuses pod with
        | [cs] => container_status sf pod cs
        | _ => None
        end in
      match detailed with
      | Some st => st
      | None => phase_fallback (pod_Phase pod)
      end
  end.

(** *** [Get] *)

Definition customerPodSelector : Selector :=
  SelectorFromSet {[ "blimp.customerPod" := "true" ]}.

(** [pod.GetLabels()["blimp.service"]]: the empty string when the label is
    missing. *)
Definition svcName (pod : Pod) : string :=
  default "" (pod_Labels pod !! "blimp.service").

(** The loop that fills [services]. *)
Definition collect_services (sf : statusFetcher) (pods : list Pod)
    : gmap string ServiceStatus :=
  fold_left (λ services pod, <[svcName pod := getServiceStatus sf pod]> services)
            pods ∅.

(** [cluster.SandboxStatus{}]. *)
Definition SandboxStatus_zero : SandboxStatus := mkSandboxStatus SandboxPhase_zero ∅.

Definition Get (sf : statusFetcher) (namespace : string)
    : SandboxStatus * option error :=
  match namespaceLister sf namespace with
  | Err err =>
      if IsNotFound err
      then (mkSandboxStatus SandboxStatus_DOES_NOT_EXIST ∅, None)
      else (SandboxStatus_zero, Some (WithContext "get sandbox" err))
  | Ok ns =>
      if ns_Phase ns =s? NamespaceTerminating
      then (mkSandboxStatus SandboxStatus_TERMINATING ∅, None)
      else
        match podLister sf namespace customerPodSelector with
        | Err err => (SandboxStatus_zero, Some (WithContext "get services" err))
        | Ok pods =>
            (mkSandboxStatus SandboxStatus_RUNNING (collect_services sf pods), None)
        end
  end.

(** *** Listers over a local store

    The listers that [newStatusFetcher] takes from the informers answer
    from the informer's store: the objects of the namespace that the
    selector selects, and never an error. *)
Definition selects (selector : Selector) (labels : gmap string string) : bool :=
  match selector with
  | Everything => true
  | SelectorFromSet set =>
      bool_decide (map_Forall (λ key value, labels !! key = Some value) set)
  end.

Definition storePodLister (store : list Pod) (namespace : string) (selector : Selector)
    : result kerror (list Pod) :=
  Ok (List.filter (λ pod, (pod_Namespace pod =s? namespace)
                          && selects selector (pod_Labels pod)) store).

Definition storeEventLister (store : list Event) (namespace : string)
    (selector : Selector) : result kerror (list Event) :=
  Ok (List.filter (λ event, ev_Namespace event =s? namespace) store).

Definition storeNamespaceLister (notFound : kerror) (store : list Namespace)
    (name : string) : result kerror Namespace :=
  match List.find (λ ns, ns_Name ns =s? name) store with
  | Some ns => Ok ns
  | None => Err notFound
  end.

(** *** The watcher registry *)

Definition set_registry (sf : statusFetcher) (w : gmap string (gmap Z nat))
    (ctr : Z) (cs : list Chan) : statusFetcher :=
  mkStatusFetcher (podLister sf) (eventsLister sf) (namespaceLister sf) w ctr cs.

(** [newStatusFetcher]: an empty [watchers] map and a zero counter. *)
Definition newStatusFetcher
    (pods : string → Selector → result kerror (list Pod))
    (events : string → Selector → result kerror (list Event))
    (namespaces : string → result kerror Namespace) : statusFetcher :=
  mkStatusFetcher pods events namespaces ∅ 0 [].

(** The first critical section of [Watch], under [idLock]:
    [sf.idCtr++; id := sf.idCtr]. *)
Definition allocId (sf : statusFetcher) : statusFetcher * Z :=
  let id := wrap_int (idCtr sf + 1) in
  (set_registry sf (watchers sf) id (chans sf), id).

(** The second critical section of [Watch], under [watchersLock]: the inner
    map of the namespace is made when missing, a channel of capacity one is
    made and stored under [id].  The result is the channel. *)
Definition registerWatcher (sf : statusFetcher) (namespace : string) (id : Z)
    : statusFetcher * nat :=
  let inner := default ∅ (watchers sf !! namespace) in
  let notifier := length (chans sf) in
  (set_registry sf (<[namespace := <[id := notifier]> inner]> (watchers sf))
                (idCtr sf) (chans sf ++ [make_chan 1]),
   notifier).

(** [Watch] run without interruption.  The results are the notifier and the
    id that the cleanup goroutine passes to [removeWatcher] once [stop] is
    signalled. *)
Definition Watch (sf : statusFetcher) (namespace : string) : statusFetcher * nat * Z :=
  let '(sf1, id) := allocId sf in
  let '(sf2, notifier) := registerWatcher sf1 namespace id in
  (sf2, notifier, id).

(** [notifyWatchers]: a send that never waits on every channel registered
    under the namespace; ranging over a missing entry does nothing. *)
Definition notifyWatchers (sf : statusFetcher) (namespace : string) : statusFetcher :=
  set_registry sf (watchers sf) (idCtr sf)
    (map_fold (λ (_ : Z) (client : nat) (cs : list Chan),
                 alter select_send_default client cs)
              (chans sf) (default ∅ (watchers sf !! namespace))).

(** [removeWatcher]; the second result tells whether the warning was
    logged. *)
Definition removeWatcher (sf : statusFetcher) (namespace : string) (id : Z)
    : statusFetcher * bool :=
  match watchers sf !! namespace with
  | None => (sf, true)
  | Some inner =>
      let inner' := delete id inner in
      if (size inner' =? 0)%nat
      then (set_registry sf (delete namespace (watchers sf)) (idCtr sf) (chans sf), false)
      else (set_registry sf (<[namespace := inner']> (watchers sf)) (idCtr sf) (chans sf),
            false)
  end.

(** A subscriber reading its notifier: [None] when it has to wait. *)
Definition readNotifier (sf : statusFetcher) (notifier : nat) : option statusFetcher :=
  c ← chans sf !! notifier;
  c' ← chan_recv c;
  Some (set_registry sf (watchers sf) (idCtr sf) (<[notifier := c']> (chans sf))).

(** *** The handlers of [newStatusFetcher]

    A handler runs on the fetcher it was made for; the second result tells
    whether a warning was logged. *)
Record ResourceEventHandlerFuncs := mkHandlers {
  AddFunc : intf → statusFetcher → statusFetcher * bool;
  UpdateFunc : intf → intf → statusFetcher → statusFetcher * bool;
  DeleteFunc : intf → statusFetcher → statusFetcher * bool
}.

Definition podNotifier (v : intf) (sf : statusFetcher) : statusFetcher * bool :=
  match v with
  | OtherValue => (sf, true)
  | RuntimeObject None => (sf, true)
  | RuntimeObject (Some metadata) => (notifyWatchers sf (om_Namespace metadata), false)
  end.

Definition podHandlers : ResourceEventHandlerFuncs :=
  mkHandlers podNotifier (λ _ v, podNotifier v) podNotifier.

Definition namespaceNotifier (v : intf) (sf : statusFetcher) : statusFetcher * bool :=
  match v with
  | OtherValue => (sf, true)
  | RuntimeObject None => (sf, true)
  | RuntimeObject (Some metadata) => (notifyWatchers sf (om_Name metadata), false)
  end.

Definition namespaceHandlers : ResourceEventHandlerFuncs :=
  mkHandlers namespaceNotifier (λ _ v, namespaceNotifier v) namespaceNotifier.

(** The calls that an informer makes on its handlers. *)
Inductive callback :=
  | OnAdd (v : intf)
  | OnUpdate (old new : intf)
  | OnDelete (v : intf).

Definition deliver (h : ResourceEventHandlerFuncs) (c : callback)
    (sf : statusFetcher) : statusFetcher * bool :=
  match c with
  | OnAdd v => AddFunc h v sf
  | OnUpdate old new => UpdateFunc h old new sf
  | OnDelete v => DeleteFunc h v sf
  end.

(** The value that a callback is about: the new one for an update. *)
Definition subject (c : callback) : intf :=
  match c with
  | OnAdd v | OnDelete v => v
  | OnUpdate _ new => new
  end.

(** *** Interleavings

    The steps that threads take on one fetcher.  [OpWatch] is a call of
    [Watch] that no other thread interrupts.  A call that is interrupted
    between its two critical sections is [OpAllocId] followed, after steps
    of other threads, by [OpRegister] with the id it drew.  The cleanup
    goroutine of a watch is an [OpRemove], a subscriber reading its
    notifier an [OpRead]. *)
Inductive op :=
  | OpWatch (namespace : string)
  | OpAllocId
  | OpRegister (namespace : string) (id : Z)
  | OpNotify (namespace : string)
  | OpRemove (namespace : string) (id : Z)
  | OpRead (notifier : nat).

#[global] Instance op_eq_dec : EqDecision op.
Proof. solve_decision. Defined.

(** One step: the next state and the ids drawn by the step; [None] when the
    thread cannot take the step and waits. *)
Definition step (sf : statusFetcher) (o : op) : option (statusFetcher * list Z) :=
  match o with
  | OpWatch namespace => let '(sf', _, id) := Watch sf namespace in Some (sf', [id])
  | OpAllocId => let '(sf', id) := allocId sf in Some (sf', [id])
  | OpRegister namespace id => Some ((registerWatcher sf namespace id).1, [])
  | OpNotify namespace => Some (notifyWatchers sf namespace, [])
  | OpRemove namespace id => Some ((removeWatcher sf namespace id).1, [])
  | OpRead notifier => sf' ← readNotifier sf notifier; Some (sf', [])
  end.

(** A run of a trace: the final state and the ids drawn, oldest first. *)
Fixpoint run (sf : statusFetcher) (tr : list op) : option (statusFetcher * list Z) :=
  match tr with
  | [] => Some (sf, [])
  | o :: tr' =>
      '(sf1, drawn) ← step sf o;
      '(sf2, ids) ← run sf1 tr';
      Some (sf2, drawn ++ ids)
  end.

(** The number of ids that a trace draws. *)
Definition draws (o : op) : nat :=
  match o with
  | OpWatch _ | OpAllocId => 1
  | _ => 0
  end.

(** The states that runs reach from a new fetcher. *)
Definition reachable (sf : statusFetcher) : Prop :=
  ∃ pods events namespaces tr ids,
    run (newStatusFetcher pods events namespaces) tr = Some (sf, ids).

(** The registrations of a namespace, empty when it has no entry. *)
Definition registrations (sf : statusFetcher) (namespace : string) : gmap Z nat :=
  default ∅ (watchers sf !! namespace).

(** [notifier] is the channel registered under [namespace] and [id]. *)
Definition registered (sf : statusFetcher) (namespace : string) (id : Z)
    (notifier : nat) : Prop :=
  registrations sf namespace !! id = Some notifier.

(** What holds of the registry in every reachable state: no namespace entry
    is empty, every registered channel is in the store, and every channel
    has capacity one and at most one signal buffered. *)
Record registry_ok (sf : statusFetcher) : Prop := {
  ok_nonempty : ∀ namespace inner,
    watchers sf !! namespace = Some inner → inner ≠ ∅;
  ok_stored : ∀ namespace id notifier,
    registered sf namespace id notifier → (notifier < length (chans sf))%nat;
  ok_chans : ∀ notifier c,
    chans sf !! notifier = Some c → chan_cap c = 1%nat ∧ (chan_len c ≤ 1)%nat
}.

(** The steps that leave a subscription alone: the subscriber does not read
    its notifier, its cleanup goroutine does not run, and no other watch is
    stored under its id. *)
Definition undisturbed (namespace : string) (id : Z) (notifier : nat) (o : op) : Prop :=
  o ≠ OpRead notifier ∧ o ≠ OpRemove namespace id ∧ o ≠ OpRegister namespace id.

(** No channel is registered twice. *)
Definition unshared (sf : statusFetcher) : Prop :=
  ∀ namespace1 id1 namespace2 id2 notifier,
    registered sf namespace1 id1 notifier →
    registered sf namespace2 id2 notifier →
    namespace1 = namespace2 ∧ id1 = id2.

End StatusFetcher.

(** ** Identity ([pkg/auth/auth.go])

    [crypto/sha1] of the Go library, as FIPS 180-4 defines the hash: bytes
    and 32-bit words are integers, the arithmetic on words is taken modulo
    [2 ^ 32]. *)
Module SHA1.
Definition mask32 (z : Z) : Z := z mod 2 ^ 32.
Definition rotl (x n : Z) : Z :=
  mask32 (Z.lor (Z.shiftl x n) (Z.shiftr x (32 - n))).
Definition be32 (w : Z) : list Z :=
  [(w / 2 ^ 24) mod 256; (w / 2 ^ 16) mod 256; (w / 2 ^ 8) mod 256; w mod 256].
Definition pad (msg : list Z) : list Z :=
  let len := Z.of_nat (length msg) in
  msg ++ [128] ++ replicate (Z.to_nat ((55 - len) mod 64)) 0
      ++ be32 (8 * len / 2 ^ 32) ++ be32 (8 * len).
Fixpoint words (bs : list Z) : list Z :=
  match bs with
  | b0 :: b1 :: b2 :: b3 :: rest =>
      (b0 * 2 ^ 24 + b1 * 2 ^ 16 + b2 * 2 ^ 8 + b3) :: words rest
  | _ => []
  end.
Fixpoint extend (n : nat) (rw : list Z) : list Z :=
  match n with
  | O => rw
  | S n' =>
      extend n' (rotl (Z.lxor (Z.lxor (Z.lxor (nth 2 rw 0) (nth 7 rw 0))
                                      (nth 13 rw 0)) (nth 15 rw 0)) 1 :: rw)
  end.
Definition schedule (block : list Z) : list Z := rev (extend 64 (rev (words block))).
Definition state : Type := Z * Z * Z * Z * Z.
Definition round (st : state) (tw : nat * Z) : state :=
  let '(a, b, c, d, e) := st in
  let '(t, w) := tw in
  let '(f, k) :=
    if (t <? 20)%nat
    then (Z.lor (Z.land b c) (Z.land (Z.lxor b 0xFFFFFFFF) d), 0x5A827999)
    else if (t <? 40)%nat then (Z.lxor (Z.lxor b c) d, 0x6ED9EBA1)
    else if (t <? 60)%nat
    then (Z.lor (Z.lor (Z.land b c) (Z.land b d)) (Z.land c d), 0x8F1BBCDC)
    else (Z.lxor (Z.lxor b c) d, 0xCA62C1D6) in
  (mask32 (rotl a 5 + f + e + k + w), a, rotl b 30, c, d).
Definition compress (h : state) (block : list Z) : state :=
  let '(h0, h1, h2, h3, h4) := h in
  let '(a, b, c, d, e) := fold_left round (combine (seq 0 80) (schedule block)) h in
  (mask32 (h0 + a), mask32 (h1 + b), mask32 (h2 + c), mask32 (h3 + d), mask32 (h4 + e)).
Fixpoint chunks (n : nat) (bs : list Z) : list (list Z) :=
  match n with
  | O => []
  | S n' => firstn 64 bs :: chunks n' (skipn 64 bs)
  end.
Definition init : state :=
  (0x67452301, 0xEFCDAB89, 0x98BADCFE, 0x10325476, 0xC3D2E1F0).
Definition sum (msg : list Z) : list Z :=
  let padded := pad msg in
  let '(h0, h1, h2, h3, h4) :=
    fold_left compress (chunks (length padded / 64) padded) init in
  be32 h0 ++ be32 h1 ++ be32 h2 ++ be32 h3 ++ be32 h4.
End SHA1.

(** [[]byte(str)]. *)
Definition bytes_of_string (s : string) : list Z :=
  map (λ c, Z.of_N (N_of_ascii c)) (list_ascii_of_string s).
(** The verb [%x] on a byte slice: two lower-case digits for each byte. *)
Definition hexdigit (n : Z) : ascii :=
  nth (Z.to_nat n) (list_ascii_of_string "0123456789abcdef") "0"%char.
Definition hex (bs : list Z) : string :=
  string_of_list_ascii (flat_map (λ b, [hexdigit (b / 16); hexdigit (b mod 16)]) bs).
(** [dnsCompliantHash] *)
Definition dnsCompliantHash (str : string) : string :=
  hex (SHA1.sum (bytes_of_string str)).

(** [User]; the claim "sub" of the token is decoded into [ID]. *)
Record User := mkUser {
  u_ID : string;
  u_Namespace : string
}.

(** The verifier of the OpenID Connect library: [verifier.Verify] checks a
    raw token, [idToken.Claims] decodes the claims of a verified token into
    a [User]. *)
Class Verifier := {
  IDToken : Type;
  verror : Type;
  Verify : string → result verror IDToken;
  Claims : IDToken → result verror User
}.

(** [fmt.Errorf] with the verb [%w]: the format and the error it wraps. *)
Inductive auth_error `{Verifier} :=
  | Errorf (format : string) (cause : verror).

(** [ParseIDToken] *)
Definition ParseIDToken `{Verifier} (token : string) : User * option auth_error :=
  match Verify token with
  | Err err => (mkUser "" "", Some (Errorf "verify: %w" err))
  | Ok idToken =>
      match Claims idToken with
      | Err err => (mkUser "" "", Some (Errorf "parse claims: %w" err))
      | Ok user => (mkUser (u_ID user) (dnsCompliantHash (u_ID user)), None)
      end
  end.

(** ** The rules of the specification, stated over the same data *)

(** An event matches when its involved object is the pod's container slot. *)
Definition event_matches (namespace pod fieldPath : string) (event : Event) : bool :=
  (or_Kind (ev_InvolvedObject event) =s? "Pod")
  && (or_Namespace (ev_InvolvedObject event) =s? namespace)
  && (or_Name (ev_InvolvedObject event) =s? pod)
  && (or_FieldPath (ev_InvolvedObject event) =s? fieldPath).

(** The timestamps of the matching events with the given reason. *)
Definition matching_times (namespace pod fieldPath reason : string)
    (events : list Event) : list Time.t :=
  map ev_LastTimestamp
      (List.filter (λ e, event_matches namespace pod fieldPath e
                         && (ev_Reason e =s? reason)) events).

(** The maximum of a list of timestamps, [None] for the empty list. *)
Fixpoint latest (ts : list Time.t) : option Time.t :=
  match ts with
  | [] => None
  | t :: rest =>
      match latest rest with
      | None => Some t
      | Some m => Some (Z.max t m)
      end
  end.

(** The rule of the specification for pull detection: no pull started gives
    false, a pull never completed gives true, and otherwise the latest
    completion has to be strictly earlier than the latest start. *)
Definition isPulling_rule (namespace pod fieldPath : string) (events : list Event) : bool :=
  match latest (matching_times namespace pod fieldPath "Pulling" events) with
  | None => false
  | Some started =>
      match latest (matching_times namespace pod fieldPath "Pulled" events) with
      | None => true
      | Some completed => completed <? started
      end
  end.

(** What one timestamp adds to the latest one seen so far, where zero
    stands for none seen. *)
Definition later (seen : Time.t) (o : option Time.t) : Time.t :=
  match o with
  | None => seen
  | Some m => if Time.IsZero seen then m else Z.max seen m
  end.

(** The events that the loop of [isPulling] acts on. *)
Definition pull_event (namespace pod fieldPath : string) (event : Event) : bool :=
  event_matches namespace pod fieldPath event
  && ((ev_Reason event =s? "Pulling") || (ev_Reason event =s? "Pulled")).

(** The latest of a list of timestamps, the zero time for the empty list. *)
Definition newest (ts : list Time.t) : Time.t := foldr Z.max 0 ts.

(** The characters of a lower-case hexadecimal numeral. *)
Definition is_hex (c : ascii) : bool :=
  let n := N_of_ascii c in
  ((48 <=? n) && (n <=? 57) || (97 <=? n) && (n <=? 102))%N.

Definition is_alnum (c : ascii) : bool :=
  let n := N_of_ascii c in
  ((48 <=? n) && (n <=? 57) || (97 <=? n) && (n <=? 122))%N.

(** A DNS label as the platform demands it of the name of a namespace
    (RFC 1123): at most 63 characters, lower-case letters, digits and
    hyphens, with a letter or a digit at both ends. *)
Definition is_dns1123_label (s : string) : bool :=
  let l := list_ascii_of_string s in
  (1 <=? length l)%nat && (length l <=? 63)%nat
  && forallb (λ c, is_alnum c || Ascii.eqb c "-") l
  && is_alnum (hd "-"%char l) && is_alnum (List.last l "-"%char).

(** The value of a hexadecimal digit, and the bytes of a numeral. *)
Definition unhexdigit (c : ascii) : Z :=
  let n := Z.of_N (N_of_ascii c) in
  if n <=? 57 then n - 48 else n - 87.

Fixpoint unhex (cs : list ascii) : list Z :=
  match cs with
  | hi :: lo :: rest => (16 * unhexdigit hi + unhexdigit lo) :: unhex rest
  | _ => []
  end.

(** An init container that the loop skips. *)
Definition completed (c : ContainerStatus) : Prop :=
  ∃ t, Terminated (cs_State c) = Some t ∧ t_Reason t = "Completed".

(** ** Sample data *)

Module Sample.

Definition externals : Externals := {|
  kerror := string;
  IsNotFound := λ e, e =s? "NotFound";
  ContainerNameCopyBusybox := "copy-busybox";
  ContainerNameCopyVCP := "copy-vcp";
  ContainerNameInitializeVolumeFromImage := "initialize-volume-from-image";
  ContainerNameWaitDependsOn := "wait-depends-on";
  ContainerNameWaitInitialSync := "wait-initial-sync";
  ServicePhase_zero := ServicePhase_UNKNOWN;
  SandboxPhase_zero := SandboxStatus_DOES_NOT_EXIST
|}.

Definition slot : ObjectReference :=
  mkObjectReference "Pod" "sandbox" "web" "spec.containers{web}".

Definition pulling (t : Time.t) : Event := mkEvent "sandbox" slot "Pulling" t.
Definition pulled (t : Time.t) : Event := mkEvent "sandbox" slot "Pulled" t.

(** A fetcher over a local store of namespaces, pods and events. *)
Definition fetcher (namespaces : list Namespace) (pods : list Pod)
    (events : list Event) : @statusFetcher externals :=
  @newStatusFetcher externals
    (@storePodLister externals pods)
    (@storeEventLister externals events)
    (@storeNamespaceLister externals "NotFound" namespaces).

(** A fetcher whose platform is out of reach. *)
Definition unreachable : @statusFetcher externals :=
  @newStatusFetcher externals
    (λ _ _, Err "connection refused")
    (λ _ _, Err "connection refused")
    (λ _, Err "connection refused").

(** A fetcher that finds the namespaces but cannot list pods. *)
Definition no_pods (namespaces : list Namespace) : @statusFetcher externals :=
  @newStatusFetcher externals
    (λ _ _, Err "connection refused")
    (λ _ _, Err "connection refused")
    (@storeNamespaceLister externals "NotFound" namespaces).

Definition active : Namespace := mkNamespace "sandbox" "Active".
Definition terminating : Namespace := mkNamespace "sandbox" "Terminating".

Definition succeeded (name : string) : ContainerStatus :=
  mkContainerStatus name
    (mkContainerState None None (Some (mkTerminated "Completed" ""))) false 0.

Definition crashed (name message : string) : ContainerStatus :=
  mkContainerStatus name
    (mkContainerState None None (Some (mkTerminated "Error" message))) false 0.

Definition waiting (name reason message : string) (restarts : Z) : ContainerStatus :=
  mkContainerStatus name
    (mkContainerState (Some (mkWaiting reason message)) None None) false restarts.

Definition running (name : string) (ready : bool) : ContainerStatus :=
  mkContainerStatus name (mkContainerState None (Some (mkRunning 5)) None) ready 0.

Definition stateless (name : string) : ContainerStatus :=
  mkContainerStatus name (mkContainerState None None None) false 0.

(** A pod of the sandbox, named after its service. *)
Definition pod (service : string) (inits mains : list ContainerStatus)
    (phase : string) : Pod :=
  mkPod "sandbox" service
        {[ "blimp.customerPod" := "true"; "blimp.service" := service ]}
        inits mains phase.

(** A pod of the sandbox without the service label. *)
Definition unlabelled (name : string) (phase : string) : Pod :=
  mkPod "sandbox" name {[ "blimp.customerPod" := "true" ]} [] [] phase.

(** A pod of the namespace that is not part of the sandbox. *)
Definition foreign (name : string) : Pod :=
  mkPod "sandbox" name ∅ [] [running name true] "Running".

(** A pod that waits for a dependency whose init container crashed. *)
Definition blocked_pod : Pod :=
  pod "web"
      [succeeded "copy-busybox"; crashed "wait-depends-on" "exit status 1";
       waiting "wait-initial-sync" "PodInitializing" "" 0]
      [waiting "web" "PodInitializing" "" 0] "Pending".

(** The end-to-end example of the specification. *)
Definition pull_failed_init_pod : Pod :=
  pod "web"
      [succeeded "copy-busybox";
       waiting "initialize-volume-from-image" "ErrImagePull" "not found" 0]
      [waiting "web" "PodInitializing" "" 0] "Pending".

Definition pull_failed_pod (restarts : Z) : Pod :=
  pod "web" [succeeded "copy-busybox"]
      [waiting "web" "ImagePullBackOff" "back-off" restarts] "Pending".

Definition web_pod : Pod := pod "web" [] [running "web" true] "Running".
Definition web_pod_unready : Pod := pod "web" [] [running "web" false] "Running".
Definition db_pod : Pod := pod "db" [] [running "db" true] "Running".

(** The pods of the store: two pods of the service web, a pod outside the
    sandbox, a pod without service label and a pod of the service db. *)
Definition store : list Pod :=
  [web_pod; foreign "proxy"; unlabelled "tmp" "Pending"; db_pod; web_pod_unready].

(** The fetcher after one call of [Watch] on the sandbox. *)
Definition subscribed : @statusFetcher externals :=
  (@Watch externals (fetcher [active] [] []) "sandbox").1.1.

(** Events of the sandbox among which two are about the image of web. *)
Definition noisy_events : list Event :=
  [pulling 30;
   mkEvent "sandbox" (mkObjectReference "Pod" "sandbox" "db" "spec.containers{db}")
           "Pulling" 40;
   pulled 20;
   mkEvent "sandbox" slot "Started" 50].

(** The fetcher after a watch on the sandbox and a watch on another
    namespace. *)
Definition two_watchers : @statusFetcher externals :=
  (@Watch externals subscribed "other").1.1.

(** A pod that waits for its dependencies with an image that fails to
    pull. *)
Definition waiting_for_dependencies : Pod :=
  pod "web"
      [succeeded "copy-busybox"; waiting "wait-depends-on" "ErrImagePull" "" 0]
      [waiting "web" "PodInitializing" "" 0] "Pending".

Definition restarting_pod : Pod :=
  pod "web" [] [waiting "web" "CrashLoopBackOff" "back-off 10s" 3] "Running".

(** A verifier that takes every token but the empty one, with claims that
    name a namespace of their own. *)
Definition verifier : Verifier := {|
  IDToken := string;
  verror := string;
  Verify := λ token, if token =s? "" then Err "malformed token" else Ok token;
  Claims := λ idToken,
    if idToken =s? "garbled" then Err "unexpected end of JSON input"
    else Ok (mkUser idToken "kube-system")
|}.

End Sample.

(** ** Properties *)

Section Properties.

Context `{Externals}.

(** *** Pull detection *)

Lemma event_skipped_matches namespace pod fieldPath event :
  event_skipped namespace pod fieldPath event
  = negb (event_matches namespace pod fieldPath event).
Proof.
  unfold event_skipped, event_matches.
  by repeat (destruct (_ =s? _)).
Qed.

Lemma latest_elem_of ts m : latest ts = Some m → m ∈ ts.
Proof.
  revert m. induction ts as [|t ts IH]; intros m; simpl; [done|].
  destruct (latest ts) as [m'|]; intros [= <-]; [|left].
  destruct (Z.max_spec t m') as [[_ ->]|[_ ->]]; [right; by apply IH | left].
Qed.

Lemma latest_nonzero ts m : Forall (λ t, t ≠ 0) ts → latest ts = Some m → m ≠ 0.
Proof.
  intros Hts Hm. apply latest_elem_of in Hm.
  by eapply (proj1 (Forall_forall _ _) Hts).
Qed.

Lemma later_cons seen t ts :
  t ≠ 0 → Forall (λ t, t ≠ 0) ts →
  later (if Time.IsZero seen || Time.Before seen t then t else seen) (latest ts)
  = later seen (latest (t :: ts)).
Proof.
  intros Ht Hts. cbn [latest]. unfold Time.IsZero, Time.Before.
  assert (Hm : ∀ m, latest ts = Some m → m ≠ 0) by (intros m; by apply latest_nonzero).
  destruct (latest ts) as [m|]; unfold later, Time.IsZero.
  - specialize (Hm m eq_refl).
    destruct (Z.eqb_spec seen 0) as [->|Hseen]; cbn [orb].
    + by destruct (Z.eqb_spec t 0).
    + destruct (Z.ltb_spec seen t).
      * destruct (Z.eqb_spec t 0); [done|]. lia.
      * destruct (Z.eqb_spec seen 0); [done|]. lia.
  - destruct (Z.eqb_spec seen 0) as [->|Hseen]; cbn [orb]; [done|].
    destruct (Z.ltb_spec seen t); lia.
Qed.

Lemma pull_times_later namespace pod fieldPath events started done_ :
  Forall (λ t, t ≠ 0) (matching_times namespace pod fieldPath "Pulling" events) →
  Forall (λ t, t ≠ 0) (matching_times namespace pod fieldPath "Pulled" events) →
  fold_left (pull_step namespace pod fieldPath) events (started, done_)
  = (later started (latest (matching_times namespace pod fieldPath "Pulling" events)),
     later done_ (latest (matching_times namespace pod fieldPath "Pulled" events))).
Proof.
  revert started done_.
  induction events as [|e events IH]; intros started done_ Hs Hc; [done|].
  cbn [fold_left]. unfold pull_step at 2.
  rewrite event_skipped_matches.
  unfold matching_times in *. cbn [List.filter] in *.
  destruct (event_matches namespace pod fieldPath e); cbn [negb andb] in *;
    [|by apply IH].
  destruct (ev_Reason e =s? "Pulling") eqn:Hstart.
  - apply String.eqb_eq in Hstart. rewrite Hstart in *.
    cbn [String.eqb Ascii.eqb Bool.eqb andb map] in *.
    apply Forall_cons in Hs as [Ht Hs].
    rewrite <- later_cons by done.
    destruct (Time.IsZero started || Time.Before started (ev_LastTimestamp e));
      by apply IH.
  - destruct (ev_Reason e =s? "Pulled") eqn:Hdone; [|by apply IH].
    cbn [map] in *. apply Forall_cons in Hc as [Ht Hc].
    rewrite <- later_cons by done.
    destruct (Time.IsZero done_ || Time.Before done_ (ev_LastTimestamp e));
      by apply IH.
Qed.

Lemma isPulling_list_error sf namespace pod fieldPath err :
  eventsLister sf namespace Everything = Err err →
  isPulling sf namespace pod fieldPath = false.
Proof. unfold isPulling. by intros ->. Qed.

(** C1, as the code has it.  When the events of the namespace are listed
    and every matching "Pulling" and "Pulled" event carries a timestamp
    other than the zero time, [isPulling] follows the rule of the
    specification: false when no matching "Pulling" event exists, true when
    one exists and no matching "Pulled" event does, and otherwise true
    exactly when the latest "Pulled" timestamp is strictly earlier than the
    latest "Pulling" timestamp. *)
Theorem isPulling_follows_rule sf namespace pod fieldPath events :
  eventsLister sf namespace Everything = Ok events →
  Forall (λ t, t ≠ Time.zero) (matching_times namespace pod fieldPath "Pulling" events) →
  Forall (λ t, t ≠ Time.zero) (matching_times namespace pod fieldPath "Pulled" events) →
  isPulling sf namespace pod fieldPath = isPulling_rule namespace pod fieldPath events.
Proof.
  intros Hlist Hs Hc. unfold isPulling, isPulling_rule, pull_times.
  rewrite Hlist, pull_times_later by done.
  pose proof (λ m, latest_nonzero _ m Hs) as Hs'.
  pose proof (λ m, latest_nonzero _ m Hc) as Hc'.
  destruct (latest (matching_times _ _ _ "Pulling" _)) as [started|]; [|done].
  specialize (Hs' started eq_refl). cbn [later].
  unfold Time.zero, Time.IsZero, Time.Before. cbn [Z.eqb].
  destruct (Z.eqb_spec started 0) as [|_]; [done|].
  destruct (latest (matching_times _ _ _ "Pulled" _)) as [completed|]; [|done].
  specialize (Hc' completed eq_refl). cbn [later]. unfold Time.IsZero.
  cbn [Z.eqb]. by destruct (Z.eqb_spec completed 0).
Qed.

(** *** The classifier *)

Lemma init_step_completed sf pod c : completed c → init_step sf pod c = None.
Proof.
  intros (t & Ht & Hr). unfold init_step. by rewrite Ht, Hr.
Qed.

Lemma init_step_blocking sf pod c : ¬ completed c → is_Some (init_step sf pod c).
Proof.
  intros Hc. unfold init_step.
  destruct (Terminated (cs_State c)) as [t|] eqn:Ht.
  - destruct (String.eqb_spec (t_Reason t) "Completed") as [Hr|_]; [|by eexists].
    destruct Hc. by exists t.
  - repeat case_match; by eexists.
Qed.

(** The loop body reads the pod only for its namespace and its name. *)
Lemma init_step_same_slot sf pod pod' c :
  pod_Namespace pod' = pod_Namespace pod → pod_Name pod' = pod_Name pod →
  init_step sf pod' c = init_step sf pod c.
Proof. intros Hns Hname. unfold init_step. by rewrite Hns, Hname. Qed.

Lemma init_loop_skips sf pod pre rest :
  Forall completed pre → init_loop sf pod (pre ++ rest) = init_loop sf pod rest.
Proof.
  induction 1 as [|c pre Hc _ IH]; [done|].
  cbn [app init_loop]. by rewrite init_step_completed.
Qed.

Lemma init_loop_all_completed sf pod cs :
  Forall completed cs → init_loop sf pod cs = None.
Proof.
  intros Hcs. rewrite <- (app_nil_r cs). by rewrite init_loop_skips.
Qed.

Lemma getServiceStatus_decided_by sf pod pre c post :
  pod_InitContainerStatuses pod = pre ++ c :: post →
  Forall completed pre → ¬ completed c →
  init_step sf pod c = Some (getServiceStatus sf pod).
Proof.
  intros Hinit Hpre Hc. unfold getServiceStatus.
  rewrite Hinit, init_loop_skips by done. cbn [init_loop].
  by destruct (init_step_blocking sf pod c Hc) as [st ->].
Qed.

(** C2.  The first init-container status, in declared order, that is not
    terminated with reason "Completed" decides the result: the completed
    ones before it are skipped, the result is the one the loop body gives
    for the deciding container, so that neither the init containers after
    it nor anything else of the pod but its namespace and name is read, and
    a deciding container that has terminated yields the phase mapped from
    its name with the message "Unexpected system error: " followed by its
    terminated message. *)
Theorem getServiceStatus_first_blocking_init sf pod pre c post :
  pod_InitContainerStatuses pod = pre ++ c :: post →
  Forall completed pre →
  ¬ completed c →
  init_step sf pod c = Some (getServiceStatus sf pod)
  ∧ (∀ pod' pre' post',
       pod_Namespace pod' = pod_Namespace pod →
       pod_Name pod' = pod_Name pod →
       pod_InitContainerStatuses pod' = pre' ++ c :: post' →
       Forall completed pre' →
       getServiceStatus sf pod' = getServiceStatus sf pod)
  ∧ (∀ t, Terminated (cs_State c) = Some t →
       getServiceStatus sf pod
       = mkServiceStatus (init_phase (cs_Name c))
           ("Unexpected system error: " +:+ t_Message t) false).
Proof.
  intros Hinit Hpre Hc.
  pose proof (getServiceStatus_decided_by sf pod pre c post Hinit Hpre Hc) as Hdec.
  split; [done|]. split.
  - intros pod' pre' post' Hns Hname Hinit' Hpre'.
    pose proof (getServiceStatus_decided_by sf pod' pre' c post' Hinit' Hpre' Hc) as Hdec'.
    rewrite (init_step_same_slot sf pod pod') in Hdec' by done. congruence.
  - intros t Ht. unfold init_step in Hdec. rewrite Ht in Hdec.
    destruct (String.eqb_spec (t_Reason t) "Completed") as [Hr|_]; [|congruence].
    destruct Hc. by exists t.
Qed.

Lemma isImagePullFailure_waiting c w :
  Waiting (cs_State c) = Some w →
  w_Reason w = "ErrImagePull" ∨ w_Reason w = "ImagePullBackOff" →
  isImagePullFailure c = true.
Proof.
  intros Hw Hr. unfold isImagePullFailure. rewrite Hw.
  destruct Hr as [-> | ->]; reflexivity.
Qed.

(** C3.  A blocking container that waits with reason "ErrImagePull" or
    "ImagePullBackOff" gives PENDING with the fixed pull-failure message,
    whatever its restart count: the volume-initialization init container
    when it is the first init container that is not completed, and the
    single main container when every init container is completed. *)
Theorem getServiceStatus_image_pull_failure sf pod c w :
  Waiting (cs_State c) = Some w →
  w_Reason w = "ErrImagePull" ∨ w_Reason w = "ImagePullBackOff" →
  (∃ pre post,
      pod_InitContainerStatuses pod = pre ++ c :: post
      ∧ Forall completed pre
      ∧ cs_Name c = ContainerNameInitializeVolumeFromImage
      ∧ Terminated (cs_State c) = None)
  ∨ (Forall completed (pod_InitContainerStatuses pod)
     ∧ pod_ContainerStatuses pod = [c]
     ∧ Running (cs_State c) = None) →
  getServiceStatus sf pod
  = mkServiceStatus ServicePhase_PENDING imagePullFailureMsg false.
Proof.
  intros Hw Hr Hblock.
  pose proof (isImagePullFailure_waiting c w Hw Hr) as Hfail.
  destruct Hblock as [(pre & post & Hinit & Hpre & Hname & Hterm)
                     |(Hinit & Hmain & Hrun)].
  - assert (Hc : ¬ completed c) by (intros (t & Ht & _); congruence).
    pose proof (getServiceStatus_decided_by sf pod pre c post Hinit Hpre Hc) as Hdec.
    unfold init_step in Hdec. rewrite Hterm, Hname, String.eqb_refl in Hdec.
    rewrite <- Hname, Hfail in Hdec. congruence.
  - unfold getServiceStatus. rewrite init_loop_all_completed, Hmain by done.
    unfold container_status. by rewrite Hrun, Hw, Hfail.
Qed.

(** C7.  With every init container completed, a pod whose list of container
    statuses does not have exactly one entry, or whose single container
    status has none of the three states set, is classified by its phase:
    Running gives RUNNING, Pending gives PENDING, Succeeded and Failed give
    EXITED and every other phase gives UNKNOWN, with no message and not
    started. *)
Theorem getServiceStatus_phase_fallback sf pod :
  Forall completed (pod_InitContainerStatuses pod) →
  length (pod_ContainerStatuses pod) ≠ 1%nat
  ∨ (∃ cs, pod_ContainerStatuses pod = [cs]
           ∧ Running (cs_State cs) = None
           ∧ Waiting (cs_State cs) = None
           ∧ Terminated (cs_State cs) = None) →
  (pod_Phase pod = "Running" →
     getServiceStatus sf pod = mkServiceStatus ServicePhase_RUNNING "" false)
  ∧ (pod_Phase pod = "Pending" →
     getServiceStatus sf pod = mkServiceStatus ServicePhase_PENDING "" false)
  ∧ (pod_Phase pod = "Succeeded" ∨ pod_Phase pod = "Failed" →
     getServiceStatus sf pod = mkServiceStatus ServicePhase_EXITED "" false)
  ∧ (pod_Phase pod ≠ "Running" → pod_Phase pod ≠ "Pending" →
     pod_Phase pod ≠ "Succeeded" → pod_Phase pod ≠ "Failed" →
     getServiceStatus sf pod = mkServiceStatus ServicePhase_UNKNOWN "" false).
Proof.
  intros Hinit Hmain.
  assert (Hfb : getServiceStatus sf pod = phase_fallback (pod_Phase pod)).
  { unfold getServiceStatus. rewrite init_loop_all_completed by done.
    destruct Hmain as [Hlen | (cs & -> & Hrun & Hwait & Hterm)].
    - by destruct (pod_ContainerStatuses pod) as [|? [|? ?]].
    - unfold container_status. by rewrite Hrun, Hwait, Hterm. }
  rewrite Hfb. unfold phase_fallback, PodRunning, PodPending, PodSucceeded, PodFailed.
  repeat split.
  - by intros ->.
  - by intros ->.
  - by intros [-> | ->].
  - intros Hr Hp Hs Hf.
    destruct (String.eqb_spec (pod_Phase pod) "Running"); [done|].
    destruct (String.eqb_spec (pod_Phase pod) "Pending"); [done|].
    destruct (String.eqb_spec (pod_Phase pod) "Succeeded"); [done|].
    by destruct (String.eqb_spec (pod_Phase pod) "Failed").
Qed.

(** *** The aggregator *)

(** C4.  A lookup that reports not-found gives DOES_NOT_EXIST and no error.
    Every other lookup error, and every error of the pod list, comes back
    wrapped with the context of the operation. *)
Theorem Get_errors sf namespace :
  (∀ err, namespaceLister sf namespace = Err err → IsNotFound err = true →
     Get sf namespace = (mkSandboxStatus SandboxStatus_DOES_NOT_EXIST ∅, None))
  ∧ (∀ err, namespaceLister sf namespace = Err err → IsNotFound err = false →
     Get sf namespace = (SandboxStatus_zero, Some (WithContext "get sandbox" err)))
  ∧ (∀ ns err, namespaceLister sf namespace = Ok ns →
     ns_Phase ns ≠ NamespaceTerminating →
     podLister sf namespace customerPodSelector = Err err →
     Get sf namespace = (SandboxStatus_zero, Some (WithContext "get services" err))).
Proof.
  unfold Get. repeat split.
  - by intros err -> ->.
  - by intros err -> ->.
  - intros ns err -> Hphase ->.
    by destruct (String.eqb_spec (ns_Phase ns) NamespaceTerminating).
Qed.

(** C5.  A namespace whose phase is terminating gives TERMINATING with no
    services and no error, whatever the pod lister holds; and whenever the
    services of a result are not empty its phase is RUNNING. *)
Theorem Get_terminating :
  (∀ sf namespace ns,
     namespaceLister sf namespace = Ok ns →
     ns_Phase ns = NamespaceTerminating →
     Get sf namespace = (mkSandboxStatus SandboxStatus_TERMINATING ∅, None))
  ∧ (∀ sf namespace,
     sb_Services (Get sf namespace).1 ≠ ∅ →
     sb_Phase (Get sf namespace).1 = SandboxStatus_RUNNING).
Proof.
  split.
  - intros sf namespace ns Hns Hphase. unfold Get. by rewrite Hns, Hphase.
  - intros sf namespace. unfold Get, SandboxStatus_zero.
    repeat case_match; done.
Qed.

Lemma collect_services_acc sf pods (acc : gmap string ServiceStatus) :
  fold_left (λ services pod, <[svcName pod := getServiceStatus sf pod]> services)
            pods acc
  = collect_services sf pods ∪ acc.
Proof.
  unfold collect_services. revert acc.
  induction pods as [|pod pods IH] using rev_ind; intros acc.
  - cbn. by rewrite (left_id_L ∅ (∪)).
  - rewrite !fold_left_app. cbn [fold_left].
    rewrite IH. by rewrite insert_union_l.
Qed.

Lemma collect_services_snoc sf pods pod :
  collect_services sf (pods ++ [pod])
  = <[svcName pod := getServiceStatus sf pod]> (collect_services sf pods).
Proof. unfold collect_services. by rewrite fold_left_app. Qed.

Lemma collect_services_dom sf pods :
  dom (collect_services sf pods) = list_to_set (svcName <$> pods).
Proof.
  induction pods as [|pod pods IH] using rev_ind; [done|].
  rewrite collect_services_snoc, dom_insert_L, IH, fmap_app, list_to_set_app_L.
  cbn. rewrite (right_id_L ∅ (∪)). apply (comm_L (∪)).
Qed.

Lemma collect_services_origin sf pods name st :
  collect_services sf pods !! name = Some st →
  ∃ pod, pod ∈ pods ∧ svcName pod = name ∧ st = getServiceStatus sf pod.
Proof.
  induction pods as [|pod pods IH] using rev_ind; [done|].
  rewrite collect_services_snoc.
  destruct (decide (svcName pod = name)) as [<-|Hne].
  - rewrite lookup_insert_eq. intros [= <-]. exists pod. set_solver.
  - rewrite lookup_insert_ne by done. intros (pod' & ? & ? & ?)%IH.
    exists pod'. set_solver.
Qed.

Lemma collect_services_last sf pre pod post :
  Forall (λ q, svcName q ≠ svcName pod) post →
  collect_services sf (pre ++ pod :: post) !! svcName pod
  = Some (getServiceStatus sf pod).
Proof.
  induction post as [|q post IH] using rev_ind; intros Hpost.
  - by rewrite collect_services_snoc, lookup_insert_eq.
  - apply Forall_app in Hpost as [Hpost Hq].
    apply Forall_cons in Hq as [Hq _].
    rewrite app_comm_cons, app_assoc, collect_services_snoc.
    rewrite lookup_insert_ne by done. by apply IH.
Qed.

(** C6.  A namespace that is found and is not terminating gives RUNNING
    and no error, with a services map built from the pods that the lister
    returns for the namespace and the selector of the label
    "blimp.customerPod" = "true": its keys are the service names of these
    pods, and every entry is the classifier's result for one of these pods
    with that service name. *)
Theorem Get_running sf namespace ns pods :
  namespaceLister sf namespace = Ok ns →
  ns_Phase ns ≠ NamespaceTerminating →
  podLister sf namespace (SelectorFromSet {[ "blimp.customerPod" := "true" ]})
    = Ok pods →
  ∃ services,
    Get sf namespace = (mkSandboxStatus SandboxStatus_RUNNING services, None)
    ∧ (∀ name, is_Some (services !! name) ↔ ∃ pod, pod ∈ pods ∧ svcName pod = name)
    ∧ (∀ name st, services !! name = Some st →
         ∃ pod, pod ∈ pods ∧ svcName pod = name ∧ st = getServiceStatus sf pod)
    ∧ (∀ pod, pod ∈ pods →
         ∃ pod', pod' ∈ pods ∧ svcName pod' = svcName pod
                 ∧ services !! svcName pod = Some (getServiceStatus sf pod')).
Proof.
  intros Hns Hphase Hpods. exists (collect_services sf pods).
  assert (Hdom : ∀ name, is_Some (collect_services sf pods !! name)
                         ↔ ∃ pod, pod ∈ pods ∧ svcName pod = name).
  { intros name. rewrite <- elem_of_dom, collect_services_dom.
    rewrite elem_of_list_to_set, list_elem_of_fmap.
    split; intros (pod & ? & ?); by exists pod. }
  repeat split.
  - unfold Get, customerPodSelector. rewrite Hns, Hpods.
    by destruct (String.eqb_spec (ns_Phase ns) NamespaceTerminating).
  - by apply Hdom.
  - by apply Hdom.
  - apply collect_services_origin.
  - intros pod Hpod.
    destruct (proj2 (Hdom (svcName pod))) as [st Hst]; [by exists pod|].
    destruct (collect_services_origin _ _ _ _ Hst) as (pod' & ? & ? & ->).
    by exists pod'.
Qed.

(** The same over the informer's store: the pods that contribute are the
    stored pods of the namespace that carry the label. *)
Lemma storePodLister_customer_pods store namespace pod :
  pod ∈ List.filter (λ pod, (pod_Namespace pod =s? namespace)
                            && selects customerPodSelector (pod_Labels pod)) store
  ↔ pod ∈ store ∧ pod_Namespace pod = namespace
    ∧ pod_Labels pod !! "blimp.customerPod" = Some "true".
Proof.
  rewrite !list_elem_of_In, filter_In, andb_true_iff, String.eqb_eq.
  unfold selects, customerPodSelector.
  rewrite bool_decide_eq_true, map_Forall_singleton. tauto.
Qed.

(** C10.  When [Get] answers RUNNING the services map has one entry for
    each service name that occurs among the listed pods; of the pods that
    share a service name the one latest in the list gives the entry; and a
    pod without the label "blimp.service" has the empty service name. *)
Theorem Get_services_last_wins sf namespace ns pods :
  namespaceLister sf namespace = Ok ns →
  ns_Phase ns ≠ NamespaceTerminating →
  podLister sf namespace (SelectorFromSet {[ "blimp.customerPod" := "true" ]})
    = Ok pods →
  ∃ services,
    Get sf namespace = (mkSandboxStatus SandboxStatus_RUNNING services, None)
    ∧ dom services = list_to_set (svcName <$> pods)
    ∧ size services = length (remove_dups (svcName <$> pods))
    ∧ (∀ pre pod post,
         pods = pre ++ pod :: post →
         Forall (λ later, svcName later ≠ svcName pod) post →
         services !! svcName pod = Some (getServiceStatus sf pod))
    ∧ (∀ pod, pod ∈ pods → pod_Labels pod !! "blimp.service" = None →
         svcName pod = "").
Proof.
  intros Hns Hphase Hpods. exists (collect_services sf pods).
  split; [|split; [|split; [|split]]].
  - unfold Get, customerPodSelector. rewrite Hns, Hpods.
    by destruct (String.eqb_spec (ns_Phase ns) NamespaceTerminating).
  - apply collect_services_dom.
  - rewrite <- size_dom, collect_services_dom.
    rewrite <- (size_list_to_set (C := gset string) (remove_dups (svcName <$> pods)))
      by apply NoDup_remove_dups.
    f_equal. apply set_eq. intros name.
    by rewrite !elem_of_list_to_set, elem_of_remove_dups.
  - intros pre pod post -> Hpost. by apply collect_services_last.
  - intros pod _ Hlabel. unfold svcName. by rewrite Hlabel.
Qed.

(** *** The watcher registry *)

Lemma select_send_default_full c :
  chan_cap c = 1%nat → (chan_len c ≤ 1)%nat → select_send_default c = mkChan 1 1.
Proof.
  destruct c as [cap [|[|n]]]; cbn; intros -> Hlen; cbn; [done|done|lia].
Qed.

(** The store after the sends of [notifyWatchers] over the registrations
    [inner]. *)
Lemma notify_sends (cs0 : list Chan) (inner : gmap Z nat) :
  (∀ r c, cs0 !! r = Some c → chan_cap c = 1%nat ∧ (chan_len c ≤ 1)%nat) →
  let cs := map_fold (λ (_ : Z) (client : nat) (cs : list Chan),
                        alter select_send_default client cs) cs0 inner in
  length cs = length cs0
  ∧ ∀ r c0, cs0 !! r = Some c0 →
      (cs !! r = Some c0 ∨ cs !! r = Some (mkChan 1 1))
      ∧ ((∃ id, inner !! id = Some r) → cs !! r = Some (mkChan 1 1))
      ∧ ((∀ id, inner !! id ≠ Some r) → cs !! r = Some c0).
Proof.
  intros Hcs0. cbv zeta.
  apply (map_fold_weak_ind (λ cs inner,
    length cs = length cs0
    ∧ ∀ r c0, cs0 !! r = Some c0 →
        (cs !! r = Some c0 ∨ cs !! r = Some (mkChan 1 1))
        ∧ ((∃ id, inner !! id = Some r) → cs !! r = Some (mkChan 1 1))
        ∧ ((∀ id, inner !! id ≠ Some r) → cs !! r = Some c0))).
  - split; [done|]. intros r c0 Hr. repeat split; [by left| |done].
    intros [id Hid]. by rewrite lookup_empty in Hid.
  - intros i x m cs Hi [Hlen IH]. split; [by rewrite length_alter|].
    intros r c0 Hr. destruct (IH r c0 Hr) as (Hor & Hin & Hout).
    destruct (decide (x = r)) as [->|Hne].
    + assert (Hfull : alter select_send_default r cs !! r = Some (mkChan 1 1)).
      { rewrite list_lookup_alter_eq.
        destruct (Hcs0 r c0 Hr) as [Hcap Hle].
        destruct Hor as [-> | ->]; cbn; f_equal; by apply select_send_default_full. }
      repeat split; [by right|done|].
      intros Hnone. destruct (Hnone i). by rewrite lookup_insert_eq.
    + rewrite list_lookup_alter_ne by done. repeat split; [done| |].
      * intros [id Hid]. apply Hin. exists id.
        destruct (decide (i = id)) as [->|?].
        -- rewrite lookup_insert_eq in Hid. congruence.
        -- by rewrite lookup_insert_ne in Hid.
      * intros Hnone. apply Hout. intros id Hid. apply (Hnone id).
        destruct (decide (i = id)) as [->|?]; [congruence|].
        by rewrite lookup_insert_ne.
Qed.

Lemma registered_inner sf namespace id notifier :
  registered sf namespace id notifier ↔
  ∃ inner, watchers sf !! namespace = Some inner ∧ inner !! id = Some notifier.
Proof.
  unfold registered, registrations. destruct (watchers sf !! namespace) as [inner|]; cbn.
  - split; [by exists inner | by intros (? & [= <-] & ?)].
  - rewrite lookup_empty. split; [done | by intros (? & ? & ?)].
Qed.

Lemma notifyWatchers_fills sf namespace id notifier :
  registry_ok sf → registered sf namespace id notifier →
  chans (notifyWatchers sf namespace) !! notifier = Some (mkChan 1 1).
Proof.
  intros Hok Hreg. unfold notifyWatchers. cbn.
  pose proof (ok_stored sf Hok _ _ _ Hreg) as Hlt.
  destruct (lookup_lt_is_Some_2 _ _ Hlt) as [c0 Hc0].
  destruct (notify_sends (chans sf) (default ∅ (watchers sf !! namespace))
              (ok_chans sf Hok)) as [_ Hsend].
  destruct (Hsend _ _ Hc0) as (_ & Hin & _). apply Hin. by exists id.
Qed.

Lemma notifyWatchers_keeps_full sf namespace notifier :
  registry_ok sf → chans sf !! notifier = Some (mkChan 1 1) →
  chans (notifyWatchers sf namespace) !! notifier = Some (mkChan 1 1).
Proof.
  intros Hok Hfull. unfold notifyWatchers. cbn.
  destruct (notify_sends (chans sf) (default ∅ (watchers sf !! namespace))
              (ok_chans sf Hok)) as [_ Hsend].
  destruct (Hsend _ _ Hfull) as ([?|?] & _); done.
Qed.

Lemma registerWatcher_registered sf namespace id namespace' id' notifier :
  registered (registerWatcher sf namespace id).1 namespace' id' notifier ↔
  (namespace' = namespace ∧ id' = id ∧ notifier = length (chans sf))
  ∨ ((namespace', id') ≠ (namespace, id) ∧ registered sf namespace' id' notifier).
Proof.
  unfold registered, registrations, registerWatcher. cbn.
  destruct (decide (namespace = namespace')) as [<-|Hns].
  - rewrite lookup_insert_eq. cbn.
    destruct (decide (id = id')) as [<-|Hid].
    + rewrite lookup_insert_eq. split.
      * intros [= <-]. by left.
      * intros [(_ & _ & ->)|[Hne _]]; [done | by destruct Hne].
    + rewrite lookup_insert_ne by done. split.
      * intros Hreg. right. split; [congruence|done].
      * intros [(_ & -> & _)|[_ Hreg]]; [by destruct Hid | done].
  - rewrite lookup_insert_ne by done. split.
    + intros Hreg. right. split; [congruence|done].
    + intros [(-> & _)|[_ Hreg]]; [by destruct Hns | done].
Qed.

Lemma removeWatcher_registered sf namespace id namespace' id' notifier :
  registered (removeWatcher sf namespace id).1 namespace' id' notifier ↔
  (namespace', id') ≠ (namespace, id) ∧ registered sf namespace' id' notifier.
Proof.
  unfold registered, registrations, removeWatcher.
  destruct (watchers sf !! namespace) as [inner|] eqn:Hinner; cbn.
  - destruct (Nat.eqb_spec (size (delete id inner)) 0) as [Hsize|Hsize]; cbn.
    + apply map_size_empty_inv in Hsize.
      destruct (decide (namespace = namespace')) as [<-|Hns].
      * rewrite lookup_delete_eq, Hinner. cbn. rewrite lookup_empty.
        split; [done|]. intros [Hne Hreg].
        assert (id ≠ id') as Hid by congruence.
        apply (f_equal (λ m, m !! id')) in Hsize.
        rewrite lookup_delete_ne, lookup_empty in Hsize by done. congruence.
      * rewrite lookup_delete_ne by done. split; [|by intros [_ ?]].
        intros Hreg. split; [congruence|done].
    + destruct (decide (namespace = namespace')) as [<-|Hns].
      * rewrite lookup_insert_eq, Hinner. cbn.
        destruct (decide (id = id')) as [<-|Hid].
        -- rewrite lookup_delete_eq. split; [done | by intros [Hne _]].
        -- rewrite lookup_delete_ne by done. split; [|by intros [_ ?]].
           intros Hreg. split; [congruence|done].
      * rewrite lookup_insert_ne by done. split; [|by intros [_ ?]].
        intros Hreg. split; [congruence|done].
  - split; [|by intros [_ ?]]. intros Hreg. split; [|done].
    intros [= -> ->]. rewrite Hinner in Hreg. cbn in Hreg.
    by rewrite lookup_empty in Hreg.
Qed.

Lemma newStatusFetcher_ok pods events namespaces :
  registry_ok (newStatusFetcher pods events namespaces).
Proof.
  split; cbn.
  - intros namespace inner Hin. by rewrite lookup_empty in Hin.
  - intros namespace id notifier. unfold registered, registrations. cbn.
    by rewrite lookup_empty; cbn; rewrite lookup_empty.
  - done.
Qed.

Lemma allocId_ok sf : registry_ok sf → registry_ok (allocId sf).1.
Proof. intros [Hne Hst Hch]. by split. Qed.

Lemma registerWatcher_ok sf namespace id :
  registry_ok sf → registry_ok (registerWatcher sf namespace id).1.
Proof.
  intros Hok. split.
  - intros namespace' inner. cbn.
    destruct (decide (namespace = namespace')) as [<-|Hns].
    + rewrite lookup_insert_eq. intros [= <-]. apply insert_non_empty.
    + rewrite lookup_insert_ne by done. apply (ok_nonempty sf Hok).
  - intros namespace' id' notifier Hreg.
    apply registerWatcher_registered in Hreg. cbn. rewrite length_app. cbn.
    destruct Hreg as [(_ & _ & ->)|[_ Hreg]]; [lia|].
    pose proof (ok_stored sf Hok _ _ _ Hreg). lia.
  - intros notifier c. cbn. intros Hc.
    apply lookup_app_Some in Hc as [Hc|[_ Hc]]; [by eapply (ok_chans sf Hok)|].
    apply list_lookup_singleton_Some in Hc as [_ <-]. cbn. lia.
Qed.

Lemma notifyWatchers_ok sf namespace :
  registry_ok sf → registry_ok (notifyWatchers sf namespace).
Proof.
  intros Hok.
  destruct (notify_sends (chans sf) (default ∅ (watchers sf !! namespace))
              (ok_chans sf Hok)) as [Hlen Hsend].
  split; cbn.
  - apply (ok_nonempty sf Hok).
  - intros namespace' id notifier Hreg. rewrite Hlen.
    by apply (ok_stored sf Hok namespace' id).
  - intros notifier c Hc.
    assert (Hlt : (notifier < length (chans sf))%nat).
    { rewrite <- Hlen. by eapply lookup_lt_Some. }
    destruct (lookup_lt_is_Some_2 _ _ Hlt) as [c0 Hc0].
    destruct (Hsend _ _ Hc0) as ([Hsame|Hfull] & _).
    + rewrite Hsame in Hc. injection Hc as <-. by eapply (ok_chans sf Hok).
    + rewrite Hfull in Hc. injection Hc as <-. cbn. lia.
Qed.

Lemma removeWatcher_ok sf namespace id :
  registry_ok sf → registry_ok (removeWatcher sf namespace id).1.
Proof.
  intros Hok. split.
  - intros namespace' inner'. unfold removeWatcher.
    destruct (watchers sf !! namespace) as [inner|] eqn:Hinner; cbn;
      [|apply (ok_nonempty sf Hok)].
    destruct (Nat.eqb_spec (size (delete id inner)) 0) as [Hsize|Hsize]; cbn.
    + destruct (decide (namespace = namespace')) as [<-|Hns].
      * by rewrite lookup_delete_eq.
      * rewrite lookup_delete_ne by done. apply (ok_nonempty sf Hok).
    + destruct (decide (namespace = namespace')) as [<-|Hns].
      * rewrite lookup_insert_eq. intros [= <-]. by apply map_size_non_empty_iff.
      * rewrite lookup_insert_ne by done. apply (ok_nonempty sf Hok).
  - intros namespace' id' notifier [_ Hreg]%removeWatcher_registered.
    replace (chans (removeWatcher sf namespace id).1) with (chans sf).
    + by apply (ok_stored sf Hok namespace' id').
    + unfold removeWatcher. by repeat case_match.
  - intros notifier c.
    replace (chans (removeWatcher sf namespace id).1) with (chans sf).
    + apply (ok_chans sf Hok).
    + unfold removeWatcher. by repeat case_match.
Qed.

Lemma readNotifier_ok sf notifier sf' :
  registry_ok sf → readNotifier sf notifier = Some sf' → registry_ok sf'.
Proof.
  intros Hok. unfold readNotifier.
  destruct (chans sf !! notifier) as [c|] eqn:Hc; [|done]. cbn.
  unfold chan_recv. destruct (chan_len c) as [|n] eqn:Hlen; [done|]. cbn.
  intros [= <-]. destruct (ok_chans sf Hok _ _ Hc) as [Hcap Hle].
  split; cbn.
  - apply (ok_nonempty sf Hok).
  - intros namespace id r Hreg. rewrite length_insert.
    by apply (ok_stored sf Hok namespace id).
  - intros r c' Hc'. destruct (decide (notifier = r)) as [<-|Hne].
    + rewrite list_lookup_insert_eq in Hc' by by eapply lookup_lt_Some.
      injection Hc' as <-. cbn. lia.
    + rewrite list_lookup_insert_ne in Hc' by done. by eapply (ok_chans sf Hok).
Qed.

Lemma step_ok sf o sf' drawn :
  registry_ok sf → step sf o = Some (sf', drawn) → registry_ok sf'.
Proof.
  intros Hok. destruct o as [namespace| |namespace id|namespace|namespace id|notifier];
    cbn.
  - intros [= <- _]. by apply (registerWatcher_ok (allocId sf).1), allocId_ok.
  - intros [= <- _]. by apply allocId_ok.
  - intros [= <- _]. by apply registerWatcher_ok.
  - intros [= <- _]. by apply notifyWatchers_ok.
  - intros [= <- _]. by apply removeWatcher_ok.
  - destruct (readNotifier sf notifier) as [sf1|] eqn:Hread; [|done]. cbn.
    intros [= <- _]. by eapply readNotifier_ok.
Qed.

Lemma run_cons sf o tr :
  run sf (o :: tr)
  = '(sf1, drawn) ← step sf o; '(sf2, ids) ← run sf1 tr; Some (sf2, drawn ++ ids).
Proof. done. Qed.

Lemma run_cons_Some sf o tr sf' ids :
  run sf (o :: tr) = Some (sf', ids) ↔
  ∃ sf1 drawn rest,
    step sf o = Some (sf1, drawn) ∧ run sf1 tr = Some (sf', rest)
    ∧ ids = drawn ++ rest.
Proof.
  rewrite run_cons. destruct (step sf o) as [[sf1 drawn]|] eqn:Hstep; cbn.
  - destruct (run sf1 tr) as [[sf2 rest]|] eqn:Hrun; cbn.
    + split.
      * intros [= <- <-]. by exists sf1, drawn, rest.
      * intros (? & ? & ? & [= <- <-] & Hrun' & ->).
        rewrite Hrun in Hrun'. by injection Hrun' as <- <-.
    + split; [done|]. intros (? & ? & ? & [= <- <-] & Hrun' & _). congruence.
  - split; [done|]. by intros (? & ? & ? & ? & _).
Qed.

Lemma run_ok sf tr sf' ids :
  registry_ok sf → run sf tr = Some (sf', ids) → registry_ok sf'.
Proof.
  revert sf ids. induction tr as [|o tr IH]; intros sf ids Hok.
  - by intros [= <- _].
  - intros (sf1 & drawn & rest & Hstep & Hrun & _)%run_cons_Some.
    eapply IH; [|done]. by eapply step_ok.
Qed.

Lemma reachable_ok sf : reachable sf → registry_ok sf.
Proof.
  intros (pods & events & namespaces & tr & ids & Hrun).
  eapply run_ok; [|done]. apply newStatusFetcher_ok.
Qed.

Lemma step_keeps_registered sf o sf' drawn namespace id notifier :
  registered sf namespace id notifier →
  undisturbed namespace id notifier o →
  step sf o = Some (sf', drawn) →
  id ∉ drawn →
  registered sf' namespace id notifier.
Proof.
  intros Hreg (Hread & Hrem & Hregister).
  destruct o as [namespace'| |namespace' id'|namespace'|namespace' id'|notifier'];
    cbn.
  - intros [= <- <-] Hid. apply registerWatcher_registered. right.
    split; [|done]. intros [= _ Heq]. apply Hid. rewrite Heq. by left.
  - by intros [= <- <-] _.
  - intros [= <- <-] _. apply registerWatcher_registered. right.
    split; [|done]. intros [= <- <-]. by destruct Hregister.
  - by intros [= <- <-] _.
  - intros [= <- <-] _. apply removeWatcher_registered.
    split; [|done]. intros [= <- <-]. by destruct Hrem.
  - unfold readNotifier.
    destruct (chans sf !! notifier') as [c|]; [|done]. cbn.
    destruct (chan_recv c); [|done]. cbn. by intros [= <- <-] _.
Qed.

Lemma step_keeps_full sf o sf' drawn notifier :
  registry_ok sf →
  chans sf !! notifier = Some (mkChan 1 1) →
  o ≠ OpRead notifier →
  step sf o = Some (sf', drawn) →
  chans sf' !! notifier = Some (mkChan 1 1).
Proof.
  intros Hok Hfull Hread.
  pose proof (lookup_lt_Some _ _ _ Hfull) as Hlt.
  destruct o as [namespace'| |namespace' id'|namespace'|namespace' id'|notifier'];
    cbn.
  - intros [= <- _]. cbn. by rewrite lookup_app_l.
  - by intros [= <- _].
  - intros [= <- _]. cbn. by rewrite lookup_app_l.
  - intros [= <- _]. by apply notifyWatchers_keeps_full.
  - intros [= <- _]. unfold removeWatcher. by repeat case_match.
  - unfold readNotifier.
    destruct (chans sf !! notifier') as [c|]; [|done]. cbn.
    destruct (chan_recv c); [|done]. cbn. intros [= <- _]. cbn.
    rewrite list_lookup_insert_ne; [done|]. intros ->. by destruct Hread.
Qed.

Lemma run_keeps_full sf tr sf' ids notifier :
  registry_ok sf →
  chans sf !! notifier = Some (mkChan 1 1) →
  Forall (λ o, o ≠ OpRead notifier) tr →
  run sf tr = Some (sf', ids) →
  chans sf' !! notifier = Some (mkChan 1 1).
Proof.
  revert sf ids. induction tr as [|o tr IH]; intros sf ids Hok Hfull Htr.
  - by intros [= <- _].
  - apply Forall_cons in Htr as [Ho Htr].
    intros (sf1 & drawn & rest & Hstep & Hrun & _)%run_cons_Some.
    eapply IH; [by eapply step_ok|by eapply step_keeps_full|done|done].
Qed.

Lemma run_fills sf tr sf' ids namespace id notifier :
  registry_ok sf →
  registered sf namespace id notifier →
  run sf tr = Some (sf', ids) →
  Forall (undisturbed namespace id notifier) tr →
  id ∉ ids →
  OpNotify namespace ∈ tr →
  chans sf' !! notifier = Some (mkChan 1 1).
Proof.
  revert sf ids. induction tr as [|o tr IH]; intros sf ids Hok Hreg Hrun Htr Hid Hin.
  - by apply elem_of_nil in Hin.
  - apply Forall_cons in Htr as [Ho Htr].
    apply run_cons_Some in Hrun as (sf1 & drawn & rest & Hstep & Hrun & ->).
    apply not_elem_of_app in Hid as [Hdrawn Hrest].
    destruct (decide (o = OpNotify namespace)) as [->|Hne].
    + injection Hstep as <- _.
      eapply run_keeps_full; [|by eapply notifyWatchers_fills| |done].
      * by apply notifyWatchers_ok.
      * eapply Forall_impl; [done|]. by intros o' (? & _).
    + apply elem_of_cons in Hin as [Heq|Hin]; [by destruct Hne|].
      eapply IH; [by eapply step_ok| |done|done|done|done].
      by eapply step_keeps_registered.
Qed.

Lemma run_notifications sf namespace n :
  ∃ sf', run sf (replicate n (OpNotify namespace)) = Some (sf', []).
Proof.
  revert sf. induction n as [|n IH]; intros sf; [by exists sf|].
  destruct (IH (notifyWatchers sf namespace)) as [sf' Hrun].
  exists sf'. cbn [replicate]. apply run_cons_Some.
  by exists (notifyWatchers sf namespace), [], [].
Qed.

(** C8.  In a reachable state with a subscription of a namespace, [n ≥ 1]
    calls of [notifyWatchers] for the namespace, before the subscriber
    reads, all run without waiting (the run has a result), and leave
    exactly one signal in the subscriber's channel of capacity one.
    [run_fills] above says the same of every interleaving with steps of
    other threads that leave the subscription alone. *)
Theorem notify_coalesces sf namespace id notifier n :
  reachable sf →
  registered sf namespace id notifier →
  (1 ≤ n)%nat →
  ∃ sf',
    run sf (replicate n (OpNotify namespace)) = Some (sf', [])
    ∧ chans sf' !! notifier = Some (mkChan 1 1).
Proof.
  intros Hreach Hreg Hn.
  destruct (run_notifications sf namespace n) as [sf' Hrun].
  exists sf'. split; [done|].
  eapply (run_fills sf _ sf' [] namespace id notifier);
    [by apply reachable_ok|done|done| |by apply not_elem_of_nil|].
  - apply Forall_replicate. by repeat split.
  - destruct n as [|n]; [lia|]. left.
Qed.

Lemma wrap_int_succ z : wrap_int (wrap_int z + 1) = wrap_int (z + 1).
Proof.
  unfold wrap_int. f_equal.
  replace ((z + 2 ^ (int_bits - 1)) `mod` 2 ^ int_bits - 2 ^ (int_bits - 1) + 1
           + 2 ^ (int_bits - 1))
    with ((z + 2 ^ (int_bits - 1)) `mod` 2 ^ int_bits + 1) by lia.
  rewrite Zplus_mod_idemp_l. f_equal. lia.
Qed.

Lemma wrap_int_inj a b :
  wrap_int a = wrap_int b → Z.abs (a - b) < 2 ^ int_bits → a = b.
Proof.
  unfold wrap_int. intros Heq Hlt.
  assert (Hmod : (a + 2 ^ (int_bits - 1)) `mod` 2 ^ int_bits
                 = (b + 2 ^ (int_bits - 1)) `mod` 2 ^ int_bits) by lia.
  apply Z.cong_iff_0 in Hmod.
  apply Z.mod_divide in Hmod as [k Hk]; [|done].
  assert (k = 0) by nia. lia.
Qed.

(** The ids drawn from a counter that stands at [wrap_int base]. *)
Lemma step_draws sf o sf' drawn base :
  step sf o = Some (sf', drawn) →
  idCtr sf = wrap_int base →
  idCtr sf' = wrap_int (base + Z.of_nat (length drawn))
  ∧ ∀ i id, drawn !! i = Some id → id = wrap_int (base + 1 + Z.of_nat i).
Proof.
  intros Hstep Hctr.
  assert (Hnone : idCtr sf = wrap_int (base + Z.of_nat (length (@nil Z)))
                  ∧ ∀ i id, @nil Z !! i = Some id → id = wrap_int (base + 1 + Z.of_nat i)).
  { split; [|done]. rewrite Hctr. f_equal. cbn. lia. }
  assert (Hone : wrap_int (idCtr sf + 1)
                 = wrap_int (base + Z.of_nat (length [wrap_int (idCtr sf + 1)]))
                 ∧ ∀ i id, [wrap_int (idCtr sf + 1)] !! i = Some id
                           → id = wrap_int (base + 1 + Z.of_nat i)).
  { rewrite Hctr, wrap_int_succ. split; [done|].
    intros [|i] id; [|done]. intros [= <-]. f_equal. lia. }
  destruct o as [namespace| |namespace id'|namespace|namespace id'|notifier];
    cbn in Hstep.
  - by injection Hstep as <- <-.
  - by injection Hstep as <- <-.
  - by injection Hstep as <- <-.
  - by injection Hstep as <- <-.
  - injection Hstep as <- <-. unfold removeWatcher. by repeat case_match.
  - unfold readNotifier in Hstep.
    destruct (chans sf !! notifier) as [c|]; [|done]. cbn in Hstep.
    destruct (chan_recv c); [|done]. cbn in Hstep. by injection Hstep as <- <-.
Qed.

Lemma run_draws sf tr sf' ids base :
  run sf tr = Some (sf', ids) →
  idCtr sf = wrap_int base →
  ∀ i id, ids !! i = Some id → id = wrap_int (base + 1 + Z.of_nat i).
Proof.
  revert sf ids base. induction tr as [|o tr IH]; intros sf ids base.
  - by intros [= _ <-].
  - intros (sf1 & drawn & rest & Hstep & Hrun & ->)%run_cons_Some Hctr i id.
    destruct (step_draws _ _ _ _ _ Hstep Hctr) as [Hctr1 Hdrawn].
    intros [Hi|[Hle Hi]]%lookup_app_Some; [by apply Hdrawn|].
    rewrite (IH _ _ _ Hrun Hctr1 _ _ Hi). f_equal. lia.
Qed.

Lemma run_ids_NoDup sf tr sf' ids :
  run sf tr = Some (sf', ids) →
  idCtr sf = 0 →
  Z.of_nat (length ids) ≤ 2 ^ int_bits →
  NoDup ids.
Proof.
  intros Hrun Hctr Hlen. apply NoDup_alt. intros i j id Hi Hj.
  pose proof (lookup_lt_Some _ _ _ Hi). pose proof (lookup_lt_Some _ _ _ Hj).
  pose proof (run_draws _ _ _ _ 0 Hrun Hctr _ _ Hi) as Hi'.
  pose proof (run_draws _ _ _ _ 0 Hrun Hctr _ _ Hj) as Hj'.
  rewrite Hi' in Hj'. apply wrap_int_inj in Hj'; lia.
Qed.

Lemma registrations_nonempty sf namespace :
  registry_ok sf →
  is_Some (watchers sf !! namespace)
  ↔ ∃ id notifier, registered sf namespace id notifier.
Proof.
  intros Hok. unfold registered, registrations. split.
  - intros [inner Hinner]. rewrite Hinner. cbn.
    apply map_choose. by eapply (ok_nonempty sf Hok).
  - intros (id & notifier & Hreg).
    destruct (watchers sf !! namespace); [done|].
    cbn in Hreg. by rewrite lookup_empty in Hreg.
Qed.

Lemma removeWatcher_registrations sf namespace id :
  registrations (removeWatcher sf namespace id).1 namespace
  = delete id (registrations sf namespace).
Proof.
  apply map_eq. intros id'.
  destruct (decide (id = id')) as [<-|Hne].
  - rewrite lookup_delete_eq.
    destruct (registrations _ namespace !! id) as [notifier|] eqn:Hreg; [|done].
    apply removeWatcher_registered in Hreg as [Hreg _]. by destruct Hreg.
  - rewrite lookup_delete_ne by done.
    apply option_eq. intros notifier.
    fold (registered (removeWatcher sf namespace id).1 namespace id' notifier).
    fold (registered sf namespace id' notifier).
    rewrite removeWatcher_registered. split; [by intros [_ ?]|].
    intros Hreg. split; [congruence|done].
Qed.

Lemma removeWatcher_last sf namespace id :
  delete id (registrations sf namespace) = ∅ →
  watchers (removeWatcher sf namespace id).1 !! namespace = None.
Proof.
  unfold registrations, removeWatcher.
  destruct (watchers sf !! namespace) as [inner|] eqn:Hinner; cbn; [|done].
  intros Hempty.
  destruct (Nat.eqb_spec (size (delete id inner)) 0) as [_|Hsize]; cbn.
  - by rewrite lookup_delete_eq.
  - destruct Hsize. rewrite Hempty. apply map_size_empty.
Qed.

Lemma removeWatcher_absent sf namespace id :
  watchers sf !! namespace = None → removeWatcher sf namespace id = (sf, true).
Proof. unfold removeWatcher. by intros ->. Qed.

(** C9, as the code has it.  After every run of steps of [Watch],
    [notifyWatchers], [removeWatcher] and subscribers from a new fetcher:
    the ids drawn so far are pairwise distinct as long as no more than
    [2 ^ int_bits] of them were drawn; a namespace has an entry in
    [watchers] exactly when it has a registration; [removeWatcher] deletes
    the id from the registrations of the namespace, and deletes the entry
    of the namespace when no registration is left; and on a namespace
    without an entry it changes nothing and logs the warning. *)
Theorem registry_invariants pods events namespaces tr sf ids :
  run (newStatusFetcher pods events namespaces) tr = Some (sf, ids) →
  (Z.of_nat (length ids) ≤ 2 ^ int_bits → NoDup ids)
  ∧ (∀ namespace,
       is_Some (watchers sf !! namespace)
       ↔ ∃ id notifier, registered sf namespace id notifier)
  ∧ (∀ namespace id,
       registrations (removeWatcher sf namespace id).1 namespace
       = delete id (registrations sf namespace))
  ∧ (∀ namespace id,
       delete id (registrations sf namespace) = ∅ →
       watchers (removeWatcher sf namespace id).1 !! namespace = None)
  ∧ (∀ namespace id,
       watchers sf !! namespace = None →
       removeWatcher sf namespace id = (sf, true)).
Proof.
  intros Hrun. split; [|split; [|split; [|split]]].
  - by apply (run_ids_NoDup _ _ _ _ Hrun).
  - intros namespace. apply registrations_nonempty.
    eapply run_ok; [apply newStatusFetcher_ok|done].
  - apply removeWatcher_registrations.
  - apply removeWatcher_last.
  - apply removeWatcher_absent.
Qed.

(** Calls of [Watch] one after the other always run, and draw one id
    each. *)
Lemma run_watch_calls sf namespace n :
  ∃ sf' ids, run sf (replicate n (OpWatch namespace)) = Some (sf', ids)
             ∧ length ids = n.
Proof.
  revert sf. induction n as [|n IH]; intros sf.
  - by exists sf, [].
  - destruct (IH (registerWatcher (allocId sf).1 namespace (allocId sf).2).1)
      as (sf' & ids & Hrun & Hlen).
    exists sf', (wrap_int (idCtr sf + 1) :: ids). split; [|by rewrite <- Hlen].
    cbn [replicate]. apply run_cons_Some.
    by exists (registerWatcher (allocId sf).1 namespace (allocId sf).2).1,
              [wrap_int (idCtr sf + 1)], ids.
Qed.

(** After [2 ^ int_bits] calls of [Watch] the counter is back where it
    started, and the next call draws the id of the first one again. *)
Lemma watch_ids_wrap_around sf namespace sf' ids :
  idCtr sf = 0 →
  run sf (replicate (N.to_nat (2 ^ 64 + 1)) (OpWatch namespace)) = Some (sf', ids) →
  length ids = N.to_nat (2 ^ 64 + 1) →
  ¬ NoDup ids.
Proof.
  intros Hctr Hrun Hlen Hnodup.
  assert (H0 : (0 < length ids)%nat) by (rewrite Hlen; lia).
  assert (Hlast : (N.to_nat (2 ^ 64) < length ids)%nat) by (rewrite Hlen; lia).
  destruct (lookup_lt_is_Some_2 _ _ H0) as [a Ha].
  destruct (lookup_lt_is_Some_2 _ _ Hlast) as [b Hb].
  pose proof (run_draws _ _ _ _ 0 Hrun Hctr _ _ Ha) as Ha'.
  pose proof (run_draws _ _ _ _ 0 Hrun Hctr _ _ Hb) as Hb'.
  rewrite N_nat_Z in Hb'.
  assert (Hab : b = a) by (rewrite Ha', Hb'; reflexivity).
  rewrite Hab in Hb.
  pose proof (proj1 (NoDup_alt ids) Hnodup _ _ _ Ha Hb) as Heq.
  lia.
Qed.

(** *** More on pull detection *)

Lemma pull_times_pull_events namespace pod fieldPath events acc :
  fold_left (pull_step namespace pod fieldPath)
            (List.filter (pull_event namespace pod fieldPath) events) acc
  = fold_left (pull_step namespace pod fieldPath) events acc.
Proof.
  revert acc. induction events as [|e events IH]; intros acc; [done|].
  cbn [List.filter fold_left]. unfold pull_event at 1.
  destruct (event_matches namespace pod fieldPath e) eqn:Hm; cbn [andb].
  - destruct (ev_Reason e =s? "Pulling") eqn:Hs; cbn [orb]; [by cbn; rewrite IH|].
    destruct (ev_Reason e =s? "Pulled") eqn:Hc; [by cbn; rewrite IH|].
    rewrite IH. f_equal. unfold pull_step. destruct acc.
    by rewrite event_skipped_matches, Hm, Hs, Hc.
  - rewrite IH. f_equal. unfold pull_step. destruct acc.
    by rewrite event_skipped_matches, Hm.
Qed.

(** X1.  [isPulling] reads only the matching events with reason "Pulling"
    or "Pulled": a fetcher that lists these events alone gives the same
    answer as one that lists them among any other events. *)
Theorem isPulling_ignores_other_events sf sf' namespace pod fieldPath events :
  eventsLister sf namespace Everything = Ok events →
  eventsLister sf' namespace Everything
    = Ok (List.filter (pull_event namespace pod fieldPath) events) →
  isPulling sf' namespace pod fieldPath = isPulling sf namespace pod fieldPath.
Proof.
  intros Hsf Hsf'. unfold isPulling, pull_times.
  by rewrite Hsf, Hsf', pull_times_pull_events.
Qed.

Lemma newest_cons t ts : newest (t :: ts) = Z.max t (newest ts).
Proof. done. Qed.

Lemma newest_nonneg ts : 0 ≤ newest ts.
Proof. induction ts as [|t ts IH]; [done|]. rewrite newest_cons. lia. Qed.

Lemma newest_bound ts t : t ∈ ts → t ≤ newest ts.
Proof.
  induction ts as [|t' ts IH]; [by intros ?%elem_of_nil|].
  intros [->|Hin%IH]%elem_of_cons; rewrite newest_cons; lia.
Qed.

Lemma newest_elem_of ts : 0 < newest ts → newest ts ∈ ts.
Proof.
  induction ts as [|t ts IH]; [cbn; lia|]. rewrite newest_cons. intros Hpos.
  destruct (Z.max_spec t (newest ts)) as [[Hlt Hmax]|[Hle Hmax]];
    rewrite Hmax in *; [|left].
  right. by apply IH.
Qed.

Lemma newest_Permutation ts ts' : ts ≡ₚ ts' → newest ts = newest ts'.
Proof. induction 1; rewrite ?newest_cons; lia. Qed.

(** The loop over events none of which is earlier than the zero time keeps
    the two maxima. *)
Lemma pull_times_newest namespace pod fieldPath events started completed_ :
  Forall (λ t, 0 ≤ t) (matching_times namespace pod fieldPath "Pulling" events) →
  Forall (λ t, 0 ≤ t) (matching_times namespace pod fieldPath "Pulled" events) →
  0 ≤ started → 0 ≤ completed_ →
  fold_left (pull_step namespace pod fieldPath) events (started, completed_)
  = (Z.max started (newest (matching_times namespace pod fieldPath "Pulling" events)),
     Z.max completed_ (newest (matching_times namespace pod fieldPath "Pulled" events))).
Proof.
  revert started completed_.
  induction events as [|e events IH]; intros started completed_ Hs Hc Hs0 Hc0.
  { cbn. f_equal; lia. }
  cbn [fold_left]. unfold pull_step at 2.
  rewrite event_skipped_matches.
  unfold matching_times in *. cbn [List.filter] in *.
  destruct (event_matches namespace pod fieldPath e); cbn [negb andb] in *;
    [|by apply IH].
  destruct (ev_Reason e =s? "Pulling") eqn:Hstart.
  - apply String.eqb_eq in Hstart. rewrite Hstart in *.
    cbn [String.eqb Ascii.eqb Bool.eqb andb map] in *.
    apply Forall_cons in Hs as [Ht Hs].
    assert (Hstep : (if Time.IsZero started
                        || Time.Before started (ev_LastTimestamp e)
                     then ev_LastTimestamp e else started)
                    = Z.max started (ev_LastTimestamp e)).
    { unfold Time.IsZero, Time.Before.
      destruct (Z.eqb_spec started 0), (Z.ltb_spec started (ev_LastTimestamp e));
        cbn; lia. }
    destruct (Time.IsZero started || Time.Before started (ev_LastTimestamp e));
      rewrite IH by (done || lia); rewrite newest_cons; f_equal; lia.
  - destruct (ev_Reason e =s? "Pulled") eqn:Hdone; [|by apply IH].
    cbn [map] in *. apply Forall_cons in Hc as [Ht Hc].
    assert (Hstep : (if Time.IsZero completed_
                        || Time.Before completed_ (ev_LastTimestamp e)
                     then ev_LastTimestamp e else completed_)
                    = Z.max completed_ (ev_LastTimestamp e)).
    { unfold Time.IsZero, Time.Before.
      destruct (Z.eqb_spec completed_ 0),
               (Z.ltb_spec completed_ (ev_LastTimestamp e)); cbn; lia. }
    destruct (Time.IsZero completed_ || Time.Before completed_ (ev_LastTimestamp e));
      rewrite IH by (done || lia); rewrite newest_cons; f_equal; lia.
Qed.

Lemma isPulling_newest sf namespace pod fieldPath events :
  eventsLister sf namespace Everything = Ok events →
  Forall (λ t, 0 ≤ t) (matching_times namespace pod fieldPath "Pulling" events) →
  Forall (λ t, 0 ≤ t) (matching_times namespace pod fieldPath "Pulled" events) →
  isPulling sf namespace pod fieldPath
  = (newest (matching_times namespace pod fieldPath "Pulled" events)
     <? newest (matching_times namespace pod fieldPath "Pulling" events)).
Proof.
  intros Hlist Hs Hc. unfold isPulling, pull_times.
  rewrite Hlist, pull_times_newest by done.
  pose proof (newest_nonneg (matching_times namespace pod fieldPath "Pulling" events)).
  pose proof (newest_nonneg (matching_times namespace pod fieldPath "Pulled" events)).
  unfold Time.zero, Time.IsZero, Time.Before.
  rewrite !Z.max_r by done.
  destruct (Z.eqb_spec (newest (matching_times namespace pod fieldPath "Pulling" events)) 0),
           (Z.eqb_spec (newest (matching_times namespace pod fieldPath "Pulled" events)) 0),
           (Z.ltb_spec (newest (matching_times namespace pod fieldPath "Pulled" events))
                       (newest (matching_times namespace pod fieldPath "Pulling" events)));
    cbn; (done || lia).
Qed.

Lemma matching_times_Permutation namespace pod fieldPath reason events events' :
  events ≡ₚ events' →
  matching_times namespace pod fieldPath reason events
  ≡ₚ matching_times namespace pod fieldPath reason events'.
Proof.
  intros Hperm. unfold matching_times. apply Permutation_map.
  induction Hperm as [|e l l' _ IH|e e' l|l l' l'' _ IH1 _ IH2]; cbn.
  - done.
  - destruct (_ && _); [by constructor | done].
  - repeat destruct (_ && _); (done || by constructor).
  - by etrans.
Qed.

(** X2.  With no matching pull event earlier than the zero time, the answer
    of [isPulling] does not depend on the order in which the lister returns
    the events. *)
Theorem isPulling_order_independent sf sf' namespace pod fieldPath events events' :
  eventsLister sf namespace Everything = Ok events →
  eventsLister sf' namespace Everything = Ok events' →
  events ≡ₚ events' →
  Forall (λ t, 0 ≤ t) (matching_times namespace pod fieldPath "Pulling" events) →
  Forall (λ t, 0 ≤ t) (matching_times namespace pod fieldPath "Pulled" events) →
  isPulling sf' namespace pod fieldPath = isPulling sf namespace pod fieldPath.
Proof.
  intros Hsf Hsf' Hperm Hs Hc.
  pose proof (matching_times_Permutation namespace pod fieldPath "Pulling" _ _ Hperm)
    as Hps.
  pose proof (matching_times_Permutation namespace pod fieldPath "Pulled" _ _ Hperm)
    as Hpc.
  rewrite (isPulling_newest sf _ _ _ events), (isPulling_newest sf' _ _ _ events');
    [|done|by rewrite <- Hps|by rewrite <- Hpc|done..].
  by rewrite (newest_Permutation _ _ Hps), (newest_Permutation _ _ Hpc).
Qed.

(** X3.  With no matching pull event earlier than the zero time,
    [isPulling] answers true exactly when some matching "Pulling" event has
    a timestamp that is later than the zero time and later than the
    timestamp of every matching "Pulled" event. *)
Theorem isPulling_true_iff sf namespace pod fieldPath events :
  eventsLister sf namespace Everything = Ok events →
  Forall (λ t, 0 ≤ t) (matching_times namespace pod fieldPath "Pulling" events) →
  Forall (λ t, 0 ≤ t) (matching_times namespace pod fieldPath "Pulled" events) →
  isPulling sf namespace pod fieldPath = true
  ↔ ∃ started,
      started ∈ matching_times namespace pod fieldPath "Pulling" events
      ∧ 0 < started
      ∧ ∀ completed_,
          completed_ ∈ matching_times namespace pod fieldPath "Pulled" events →
          completed_ < started.
Proof.
  intros Hlist Hs Hc. rewrite (isPulling_newest sf _ _ _ events) by done.
  rewrite Z.ltb_lt.
  pose proof (newest_nonneg (matching_times namespace pod fieldPath "Pulled" events)).
  split.
  - intros Hlt. exists (newest (matching_times namespace pod fieldPath "Pulling" events)).
    split; [apply newest_elem_of; lia|]. split; [lia|].
    intros t Ht%newest_bound. lia.
  - intros (started & Hin%newest_bound & Hpos & Hall).
    destruct (decide (0 < newest (matching_times namespace pod fieldPath "Pulled" events)))
      as [Hc0|Hc0]; [|lia].
    apply newest_elem_of, Hall in Hc0. lia.
Qed.

(** *** More on the classifier *)

Lemma init_loop_None sf pod cs :
  init_loop sf pod cs = None → Forall completed cs.
Proof.
  induction cs as [|c cs IH]; [done|]. cbn [init_loop].
  destruct (init_step sf pod c) as [st|] eqn:Hstep; [done|].
  intros Hrest. constructor; [|by apply IH].
  unfold init_step in Hstep.
  destruct (Terminated (cs_State c)) as [t|] eqn:Ht; [|by repeat case_match].
  destruct (String.eqb_spec (t_Reason t) "Completed"); [by exists t|done].
Qed.

Lemma init_step_not_started sf pod c st :
  init_step sf pod c = Some st → HasStarted st = false.
Proof.
  unfold init_step. repeat case_match; by intros [= <-].
Qed.

Lemma init_loop_not_started sf pod cs st :
  init_loop sf pod cs = Some st → HasStarted st = false.
Proof.
  induction cs as [|c cs IH]; [done|]. cbn [init_loop].
  destruct (init_step sf pod c) as [st'|] eqn:Hstep; [|done].
  intros [= <-]. by eapply init_step_not_started.
Qed.

(** X4.  A status with [HasStarted] set comes from the single main
    container alone: every init container is completed, the pod has
    exactly one container status, and that container is running, has
    terminated, or waits after at least one restart. *)
Theorem getServiceStatus_started sf pod :
  HasStarted (getServiceStatus sf pod) = true →
  Forall completed (pod_InitContainerStatuses pod)
  ∧ ∃ cs, pod_ContainerStatuses pod = [cs]
          ∧ (is_Some (Running (cs_State cs))
             ∨ is_Some (Terminated (cs_State cs))
             ∨ 0 < cs_RestartCount cs).
Proof.
  unfold getServiceStatus.
  destruct (init_loop sf pod (pod_InitContainerStatuses pod)) as [st|] eqn:Hinit.
  - intros Hst. by rewrite (init_loop_not_started _ _ _ _ Hinit) in Hst.
  - apply init_loop_None in Hinit. intros Hst. split; [done|].
    destruct (pod_ContainerStatuses pod) as [|cs [|? ?]];
      [by destruct (pod_Phase pod); unfold phase_fallback in Hst; repeat case_match
      | |by unfold phase_fallback in Hst; repeat case_match].
    exists cs. split; [done|]. unfold container_status in Hst.
    destruct (Running (cs_State cs)) as [r|]; [left; by eexists|].
    destruct (Terminated (cs_State cs)) as [t|]; [right; left; by eexists|].
    right. right.
    destruct (Waiting (cs_State cs)) as [w|];
      [|by unfold phase_fallback in Hst; repeat case_match].
    destruct (isImagePullFailure cs); [done|].
    destruct (isPulling _ _ _ _); cbn in Hst; by apply Z.ltb_lt.
Qed.

(** X5.  Once every init container is completed no init phase is
    reported: the phase is one of RUNNING, UNHEALTHY, PENDING, EXITED and
    UNKNOWN. *)
Theorem getServiceStatus_after_init sf pod :
  Forall completed (pod_InitContainerStatuses pod) →
  Phase (getServiceStatus sf pod) ∈
    [ServicePhase_RUNNING; ServicePhase_UNHEALTHY; ServicePhase_PENDING;
     ServicePhase_EXITED; ServicePhase_UNKNOWN].
Proof.
  intros Hinit. unfold getServiceStatus.
  rewrite init_loop_all_completed by done.
  assert (Hfb : Phase (phase_fallback (pod_Phase pod)) ∈
    [ServicePhase_RUNNING; ServicePhase_UNHEALTHY; ServicePhase_PENDING;
     ServicePhase_EXITED; ServicePhase_UNKNOWN]).
  { unfold phase_fallback. repeat case_match; cbn;
      repeat first [by left | right]. }
  destruct (pod_ContainerStatuses pod) as [|cs [|? ?]]; [done| |done].
  unfold container_status.
  repeat case_match; simplify_eq; (done || (cbn; repeat first [by left | right])).
Qed.

(** X6.  A pod whose init containers are completed and whose single
    container is running is RUNNING when the container is ready and
    UNHEALTHY when it is not, started in both cases, whatever the phase of
    the pod, the events and the other members of the container state. *)
Theorem getServiceStatus_running_container sf pod cs :
  Forall completed (pod_InitContainerStatuses pod) →
  pod_ContainerStatuses pod = [cs] →
  is_Some (Running (cs_State cs)) →
  getServiceStatus sf pod
  = mkServiceStatus
      (if cs_Ready cs then ServicePhase_RUNNING else ServicePhase_UNHEALTHY) "" true.
Proof.
  intros Hinit Hmain [r Hr]. unfold getServiceStatus.
  rewrite init_loop_all_completed, Hmain by done.
  unfold container_status. rewrite Hr. by destruct (cs_Ready cs).
Qed.

(** X7.  A pod whose init containers are completed and whose single
    container waits is PENDING on each of the three paths; it counts as
    started exactly when the wait is no pull failure and the container has
    restarted; and the message is the fixed pull-failure message, the fixed
    pulling message or the waiting message of the platform. *)
Theorem getServiceStatus_waiting_container sf pod cs w :
  Forall completed (pod_InitContainerStatuses pod) →
  pod_ContainerStatuses pod = [cs] →
  Running (cs_State cs) = None →
  Waiting (cs_State cs) = Some w →
  Phase (getServiceStatus sf pod) = ServicePhase_PENDING
  ∧ HasStarted (getServiceStatus sf pod)
    = negb (isImagePullFailure cs) && (0 <? cs_RestartCount cs)
  ∧ Msg (getServiceStatus sf pod) ∈ [imagePullFailureMsg; imagePullingMsg; w_Message w].
Proof.
  intros Hinit Hmain Hrun Hwait. unfold getServiceStatus.
  rewrite init_loop_all_completed, Hmain by done.
  unfold container_status. rewrite Hrun, Hwait.
  destruct (isImagePullFailure cs); [|destruct (isPulling _ _ _ _)]; cbn;
    (split; [done|split; [done|]]).
  - left.
  - right. left.
  - do 2 right. left.
Qed.

(** X8.  Of the init containers only the volume-initialization container
    is checked for image pulls: any other init container that blocks
    without having terminated gives the phase mapped from its name, with no
    message and not started, whatever its waiting reason and the events;
    and a name that the switch does not list maps to the zero value of the
    phase. *)
Theorem getServiceStatus_other_init_container sf pod pre c post :
  pod_InitContainerStatuses pod = pre ++ c :: post →
  Forall completed pre →
  Terminated (cs_State c) = None →
  cs_Name c ≠ ContainerNameInitializeVolumeFromImage →
  getServiceStatus sf pod = mkServiceStatus (init_phase (cs_Name c)) "" false
  ∧ (cs_Name c ≠ ContainerNameCopyBusybox →
     cs_Name c ≠ ContainerNameCopyVCP →
     cs_Name c ≠ ContainerNameWaitDependsOn →
     cs_Name c ≠ ContainerNameWaitInitialSync →
     init_phase (cs_Name c) = ServicePhase_zero).
Proof.
  intros Hinit Hpre Hterm Hname. split.
  - assert (Hc : ¬ completed c) by (intros (t & Ht & _); congruence).
    pose proof (getServiceStatus_decided_by sf pod pre c post Hinit Hpre Hc) as Hdec.
    unfold init_step in Hdec. rewrite Hterm in Hdec.
    destruct (String.eqb_spec (cs_Name c) ContainerNameInitializeVolumeFromImage);
      [done|]. congruence.
  - intros H1 H2 H3 H4. unfold init_phase.
    destruct (String.eqb_spec (cs_Name c) ContainerNameCopyBusybox); [done|].
    destruct (String.eqb_spec (cs_Name c) ContainerNameCopyVCP); [done|].
    destruct (String.eqb_spec (cs_Name c) ContainerNameInitializeVolumeFromImage);
      [done|].
    destruct (String.eqb_spec (cs_Name c) ContainerNameWaitDependsOn); [done|].
    by destruct (String.eqb_spec (cs_Name c) ContainerNameWaitInitialSync).
Qed.

Lemma isPulling_same_events sf sf' namespace pod fieldPath :
  eventsLister sf' namespace Everything = eventsLister sf namespace Everything →
  isPulling sf' namespace pod fieldPath = isPulling sf namespace pod fieldPath.
Proof. unfold isPulling. by intros ->. Qed.

Lemma getServiceStatus_same_events sf sf' pod :
  eventsLister sf' (pod_Namespace pod) Everything
    = eventsLister sf (pod_Namespace pod) Everything →
  getServiceStatus sf' pod = getServiceStatus sf pod.
Proof.
  intros Hev. unfold getServiceStatus.
  assert (Hloop : ∀ cs, init_loop sf' pod cs = init_loop sf pod cs).
  { induction cs as [|c cs IH]; [done|]. cbn [init_loop]. rewrite IH.
    unfold init_step. by rewrite (isPulling_same_events sf sf'). }
  rewrite Hloop. destruct (init_loop sf pod _); [done|].
  destruct (pod_ContainerStatuses pod) as [|cs [|? ?]]; [done| |done].
  unfold container_status. by rewrite (isPulling_same_events sf sf').
Qed.

(** *** More on the aggregator *)

Lemma collect_services_same_events sf sf' pods :
  (∀ namespace, eventsLister sf' namespace Everything
                = eventsLister sf namespace Everything) →
  collect_services sf' pods = collect_services sf pods.
Proof.
  intros Hev. induction pods as [|pod pods IH] using rev_ind; [done|].
  by rewrite !collect_services_snoc, IH, (getServiceStatus_same_events sf sf').
Qed.

Lemma Get_same_listers sf sf' namespace :
  namespaceLister sf' namespace = namespaceLister sf namespace →
  podLister sf' namespace customerPodSelector
    = podLister sf namespace customerPodSelector →
  (∀ namespace', eventsLister sf' namespace' Everything
                 = eventsLister sf namespace' Everything) →
  Get sf' namespace = Get sf namespace.
Proof.
  intros Hns Hpods Hev. unfold Get. rewrite Hns, Hpods.
  destruct (namespaceLister sf namespace) as [ns|]; [|done].
  destruct (ns_Phase ns =s? NamespaceTerminating); [done|].
  destruct (podLister sf namespace customerPodSelector) as [pods|]; [|done].
  by rewrite (collect_services_same_events sf sf').
Qed.

Lemma step_listers sf o sf' drawn :
  step sf o = Some (sf', drawn) →
  podLister sf' = podLister sf
  ∧ eventsLister sf' = eventsLister sf
  ∧ namespaceLister sf' = namespaceLister sf.
Proof.
  destruct o as [namespace| |namespace id|namespace|namespace id|notifier]; cbn.
  - by intros [= <- _].
  - by intros [= <- _].
  - by intros [= <- _].
  - by intros [= <- _].
  - intros [= <- _]. unfold removeWatcher. by repeat case_match.
  - unfold readNotifier.
    destruct (chans sf !! notifier) as [c|]; [|done]. cbn.
    destruct (chan_recv c); [|done]. cbn. by intros [= <- _].
Qed.

Lemma run_listers sf tr sf' ids :
  run sf tr = Some (sf', ids) →
  podLister sf' = podLister sf
  ∧ eventsLister sf' = eventsLister sf
  ∧ namespaceLister sf' = namespaceLister sf.
Proof.
  revert sf ids. induction tr as [|o tr IH]; intros sf ids.
  - by intros [= <- _].
  - intros (sf1 & drawn & rest & Hstep & Hrun & _)%run_cons_Some.
    destruct (step_listers _ _ _ _ Hstep) as (Hp & He & Hn).
    destruct (IH _ _ Hrun) as (Hp' & He' & Hn'). repeat split; congruence.
Qed.

(** X9.  The classifier reads the fetcher only for the events of the
    namespace of the pod: two fetchers that list the same events there
    classify the pod alike, whatever their other listers and their
    registries hold.  So the steps of the registry never change how a pod
    is classified. *)
Theorem getServiceStatus_events_only sf sf' pod :
  eventsLister sf' (pod_Namespace pod) Everything
    = eventsLister sf (pod_Namespace pod) Everything →
  getServiceStatus sf' pod = getServiceStatus sf pod
  ∧ ∀ tr sf1 ids,
      run sf tr = Some (sf1, ids) →
      getServiceStatus sf1 pod = getServiceStatus sf pod.
Proof.
  intros Hev. split; [by apply getServiceStatus_same_events|].
  intros tr sf1 ids (_ & He & _)%run_listers.
  apply getServiceStatus_same_events. by rewrite He.
Qed.

(** X10.  What [Get] answers does not depend on the registry: after any
    run of [Watch], [notifyWatchers], [removeWatcher] and subscriber steps
    it answers as before. *)
Theorem Get_unaffected_by_registry sf tr sf' ids namespace :
  run sf tr = Some (sf', ids) →
  Get sf' namespace = Get sf namespace.
Proof.
  intros (Hp & He & Hn)%run_listers.
  apply Get_same_listers; by rewrite ?Hp, ?He, ?Hn.
Qed.

(** X11.  [Get] returns an error exactly when the namespace lookup fails
    with an error other than not-found, or the namespace is found, is not
    terminating and the pod list fails; and with an error it returns the
    zero status. *)
Theorem Get_error_iff sf namespace :
  ((Get sf namespace).2 ≠ None
   ↔ (∃ err, namespaceLister sf namespace = Err err ∧ IsNotFound err = false)
     ∨ (∃ ns err, namespaceLister sf namespace = Ok ns
                  ∧ ns_Phase ns ≠ NamespaceTerminating
                  ∧ podLister sf namespace customerPodSelector = Err err))
  ∧ ((Get sf namespace).2 ≠ None → (Get sf namespace).1 = SandboxStatus_zero).
Proof.
  unfold Get.
  destruct (namespaceLister sf namespace) as [ns|err].
  - destruct (String.eqb_spec (ns_Phase ns) NamespaceTerminating) as [Hterm|Hterm].
    + split; [|done]. split; [done|].
      intros [(? & ? & _)|(? & ? & [= <-] & ? & _)]; done.
    + destruct (podLister sf namespace customerPodSelector) as [pods|err].
      * split; [|done]. split; [done|].
        intros [(? & ? & _)|(? & ? & _ & _ & ?)]; done.
      * split; [|done]. split; [|done]. intros _. right. by exists ns, err.
  - destruct (IsNotFound err) eqn:Hnf.
    + split; [|done]. split; [done|].
      intros [(? & [= <-] & ?)|(? & ? & ? & _)]; congruence.
    + split; [|done]. split; [|done]. intros _. left. by exists err.
Qed.

Lemma collect_services_lookup_NoDup sf pods name st :
  NoDup (svcName <$> pods) →
  collect_services sf pods !! name = Some st
  ↔ ∃ pod, pod ∈ pods ∧ svcName pod = name ∧ st = getServiceStatus sf pod.
Proof.
  intros Hnodup. split; [apply collect_services_origin|].
  intros (pod & Hin & <- & ->).
  apply list_elem_of_split in Hin as (pre & post & ->).
  apply collect_services_last.
  rewrite fmap_app, fmap_cons in Hnodup.
  apply NoDup_app in Hnodup as (_ & _ & Hpost).
  apply NoDup_cons in Hpost as [Hnotin _].
  apply Forall_forall. intros q Hq Heq. apply Hnotin.
  rewrite <- Heq. by apply list_elem_of_fmap_2.
Qed.

(** X12.  When the listed pods have pairwise distinct service names, the
    answer of [Get] does not depend on the order in which the lister
    returns the pods. *)
Theorem Get_order_independent sf sf' namespace pods pods' :
  namespaceLister sf' namespace = namespaceLister sf namespace →
  (∀ namespace', eventsLister sf' namespace' Everything
                 = eventsLister sf namespace' Everything) →
  podLister sf namespace customerPodSelector = Ok pods →
  podLister sf' namespace customerPodSelector = Ok pods' →
  pods ≡ₚ pods' →
  NoDup (svcName <$> pods) →
  Get sf' namespace = Get sf namespace.
Proof.
  intros Hns Hev Hpods Hpods' Hperm Hnodup. unfold Get.
  rewrite Hns, Hpods, Hpods'.
  destruct (namespaceLister sf namespace) as [ns|]; [|done].
  destruct (ns_Phase ns =s? NamespaceTerminating); [done|].
  do 2 f_equal. rewrite (collect_services_same_events sf sf') by done.
  apply map_eq. intros name. apply option_eq. intros st.
  rewrite !collect_services_lookup_NoDup; [|done|by rewrite <- Hperm].
  by setoid_rewrite Hperm.
Qed.

(** *** More on the watcher registry *)

Lemma registered_same_watchers sf sf' namespace id notifier :
  watchers sf' = watchers sf →
  registered sf' namespace id notifier ↔ registered sf namespace id notifier.
Proof. unfold registered, registrations. by intros ->. Qed.

Lemma registerWatcher_unshared sf namespace id :
  registry_ok sf → unshared sf → unshared (registerWatcher sf namespace id).1.
Proof.
  intros Hok Hun ns1 id1 ns2 id2 r.
  rewrite !registerWatcher_registered.
  intros [(-> & -> & ->)|[_ H1]] [(-> & -> & Hr)|[_ H2]].
  - done.
  - apply (ok_stored sf Hok) in H2. lia.
  - apply (ok_stored sf Hok) in H1. lia.
  - by eapply Hun.
Qed.

Lemma step_unshared sf o sf' drawn :
  registry_ok sf → unshared sf → step sf o = Some (sf', drawn) → unshared sf'.
Proof.
  intros Hok Hun.
  destruct o as [namespace| |namespace id|namespace|namespace id|notifier]; cbn.
  - intros [= <- _]. apply (registerWatcher_unshared (allocId sf).1);
      [by apply allocId_ok|done].
  - by intros [= <- _].
  - intros [= <- _]. by apply registerWatcher_unshared.
  - by intros [= <- _].
  - intros [= <- _] ns1 id1 ns2 id2 r.
    rewrite !removeWatcher_registered. intros [_ H1] [_ H2]. by eapply Hun.
  - unfold readNotifier.
    destruct (chans sf !! notifier) as [c|]; [|done]. cbn.
    destruct (chan_recv c); [|done]. cbn. by intros [= <- _].
Qed.

Lemma run_unshared sf tr sf' ids :
  registry_ok sf → unshared sf → run sf tr = Some (sf', ids) → unshared sf'.
Proof.
  revert sf ids. induction tr as [|o tr IH]; intros sf ids Hok Hun.
  - by intros [= <- _].
  - intros (sf1 & drawn & rest & Hstep & Hrun & _)%run_cons_Some.
    eapply IH; [by eapply step_ok|by eapply step_unshared|done].
Qed.

Lemma reachable_unshared sf : reachable sf → unshared sf.
Proof.
  intros (pods & events & namespaces & tr & ids & Hrun).
  eapply run_unshared; [apply newStatusFetcher_ok| |done].
  intros ns1 id1 ns2 id2 r. unfold registered, registrations. cbn.
  by rewrite lookup_empty; cbn; rewrite lookup_empty.
Qed.

(** The channels that [notifyWatchers] leaves as they are. *)
Lemma notifyWatchers_untouched sf namespace notifier :
  registry_ok sf →
  (∀ id, ¬ registered sf namespace id notifier) →
  chans (notifyWatchers sf namespace) !! notifier = chans sf !! notifier.
Proof.
  intros Hok Hnone. unfold notifyWatchers. cbn.
  destruct (notify_sends (chans sf) (default ∅ (watchers sf !! namespace))
              (ok_chans sf Hok)) as [Hlen Hsend].
  destruct (chans sf !! notifier) as [c0|] eqn:Hc0.
  - destruct (Hsend _ _ Hc0) as (_ & _ & Hout). apply Hout. intros id. apply Hnone.
  - apply lookup_ge_None. rewrite Hlen. by apply lookup_ge_None.
Qed.

(** X13.  In a reachable state [Watch] hands out a channel that no
    registration held before, registers it under the namespace and the id
    drawn, and leaves the channels of the other subscribers as they are.
    The channel has capacity one and is empty, so the subscriber waits
    until the first notification. *)
Theorem Watch_fresh_channel sf namespace sf' notifier id :
  reachable sf →
  Watch sf namespace = (sf', notifier, id) →
  id = wrap_int (idCtr sf + 1)
  ∧ registered sf' namespace id notifier
  ∧ (∀ namespace' id', ¬ registered sf namespace' id' notifier)
  ∧ chans sf' !! notifier = Some (mkChan 1 0)
  ∧ readNotifier sf' notifier = None
  ∧ (∀ namespace' id' notifier',
       registered sf namespace' id' notifier' →
       chans sf' !! notifier' = chans sf !! notifier').
Proof.
  intros Hok%reachable_ok [= <- <- <-]. split; [done|]. split; [|split; [|split; [|split]]].
  - apply registerWatcher_registered. by left.
  - intros namespace' id' Hreg. apply (ok_stored sf Hok) in Hreg. cbn in Hreg. lia.
  - cbn. by rewrite lookup_app_r, Nat.sub_diag.
  - unfold readNotifier. cbn. by rewrite lookup_app_r, Nat.sub_diag.
  - intros namespace' id' notifier' Hreg. cbn.
    apply lookup_app_l. by apply (ok_stored sf Hok namespace' id').
Qed.

(** X14.  [Watch] followed by the removal of the watch restores the
    [watchers] map, provided the id drawn was not in use under the
    namespace; the removal logs no warning. *)
Theorem Watch_then_remove sf namespace sf' notifier id :
  reachable sf →
  Watch sf namespace = (sf', notifier, id) →
  registrations sf namespace !! id = None →
  watchers (removeWatcher sf' namespace id).1 = watchers sf
  ∧ (removeWatcher sf' namespace id).2 = false.
Proof.
  intros Hok%reachable_ok [= <- <- <-]. cbn [allocId fst snd].
  set (id := wrap_int (idCtr sf + 1)).
  unfold registrations. intros Hfree.
  unfold removeWatcher, registerWatcher. cbn.
  rewrite lookup_insert_eq, delete_insert_eq.
  destruct (watchers sf !! namespace) as [inner|] eqn:Hinner; cbn in *.
  - rewrite (delete_id inner id) by done.
    destruct (Nat.eqb_spec (size inner) 0) as [Hsize|Hsize]; cbn.
    + apply map_size_empty_inv in Hsize. by destruct (ok_nonempty sf Hok _ _ Hinner).
    + split; [|done]. rewrite insert_insert_eq. by apply insert_id.
  - split; [|done]. rewrite delete_insert_eq. by apply delete_id.
Qed.

(** X15.  [removeWatcher] takes away the one registration it is called
    for, and no other; it leaves the channels and the counter as they are;
    and it logs the warning exactly when the namespace has no entry. *)
Theorem removeWatcher_removes_one sf namespace id :
  (∀ namespace' id' notifier,
     registered (removeWatcher sf namespace id).1 namespace' id' notifier
     ↔ (namespace', id') ≠ (namespace, id) ∧ registered sf namespace' id' notifier)
  ∧ chans (removeWatcher sf namespace id).1 = chans sf
  ∧ idCtr (removeWatcher sf namespace id).1 = idCtr sf
  ∧ ((removeWatcher sf namespace id).2 = true ↔ watchers sf !! namespace = None).
Proof.
  split; [intros namespace' id' notifier; apply removeWatcher_registered|].
  unfold removeWatcher.
  destruct (watchers sf !! namespace) as [inner|]; [|done].
  by destruct (size (delete id inner) =? 0)%nat.
Qed.

(** X16.  [removeWatcher] is idempotent: a second removal of the same watch
    changes nothing. *)
Theorem removeWatcher_idempotent sf namespace id :
  (removeWatcher (removeWatcher sf namespace id).1 namespace id).1
  = (removeWatcher sf namespace id).1.
Proof.
  unfold removeWatcher at 2 3.
  destruct (watchers sf !! namespace) as [inner|] eqn:Hinner; cbn.
  - destruct (Nat.eqb_spec (size (delete id inner)) 0) as [Hsize|Hsize]; cbn.
    + unfold removeWatcher. cbn. by rewrite lookup_delete_eq.
    + unfold removeWatcher. cbn. rewrite lookup_insert_eq, delete_delete_eq.
      destruct (Nat.eqb_spec (size (delete id inner)) 0); [done|]. cbn.
      unfold set_registry. cbn. by rewrite insert_insert_eq.
  - unfold removeWatcher. by rewrite Hinner.
Qed.

(** X17.  A notification for one namespace leaves the channels of the
    subscribers of every other namespace as they are, and changes neither
    the [watchers] map nor the counter. *)
Theorem notifyWatchers_other_namespace sf namespace namespace' id' notifier :
  reachable sf →
  registered sf namespace' id' notifier →
  namespace' ≠ namespace →
  chans (notifyWatchers sf namespace) !! notifier = chans sf !! notifier
  ∧ watchers (notifyWatchers sf namespace) = watchers sf
  ∧ idCtr (notifyWatchers sf namespace) = idCtr sf.
Proof.
  intros Hreach Hreg Hne. split; [|done].
  apply notifyWatchers_untouched; [by apply reachable_ok|].
  intros id Hreg'.
  by destruct (reachable_unshared sf Hreach _ _ _ _ _ Hreg Hreg') as [? _].
Qed.

(** X18.  Once its watch is removed a subscriber gets no more signals:
    a notification for the namespace leaves its channel as it was. *)
Theorem removed_watcher_not_notified sf namespace id notifier :
  reachable sf →
  registered sf namespace id notifier →
  chans (notifyWatchers (removeWatcher sf namespace id).1 namespace) !! notifier
  = chans sf !! notifier.
Proof.
  intros Hreach Hreg.
  rewrite notifyWatchers_untouched.
  - unfold removeWatcher. by repeat case_match.
  - by apply removeWatcher_ok, reachable_ok.
  - intros id' [Hne Hreg']%removeWatcher_registered.
    destruct (reachable_unshared sf Hreach _ _ _ _ _ Hreg Hreg') as [_ <-].
    by destruct Hne.
Qed.

Lemma notify_sends_twice (cs0 : list Chan) (inner : gmap Z nat) :
  (∀ r c, cs0 !! r = Some c → chan_cap c = 1%nat ∧ (chan_len c ≤ 1)%nat) →
  let send := λ (_ : Z) (client : nat) (cs : list Chan),
                alter select_send_default client cs in
  map_fold send (map_fold send cs0 inner) inner = map_fold send cs0 inner.
Proof.
  intros Hcs0 send.
  destruct (notify_sends cs0 inner Hcs0) as [Hlen1 Hsend1].
  fold send in Hlen1, Hsend1. cbv zeta in Hlen1, Hsend1.
  set (cs1 := map_fold send cs0 inner) in *.
  assert (Hcs1 : ∀ r c, cs1 !! r = Some c → chan_cap c = 1%nat ∧ (chan_len c ≤ 1)%nat).
  { intros r c Hc.
    assert (Hlt : (r < length cs0)%nat)
      by (rewrite <- Hlen1; by eapply lookup_lt_Some).
    destruct (lookup_lt_is_Some_2 _ _ Hlt) as [c0 Hc0].
    destruct (Hsend1 _ _ Hc0) as ([Hsame|Hfull] & _).
    - rewrite Hsame in Hc. injection Hc as <-. by eapply Hcs0.
    - rewrite Hfull in Hc. injection Hc as <-. cbn. lia. }
  destruct (notify_sends cs1 inner Hcs1) as [Hlen2 Hsend2].
  fold send in Hlen2, Hsend2. cbv zeta in Hlen2, Hsend2.
  apply list_eq. intros r.
  destruct (cs1 !! r) as [c1|] eqn:Hc1.
  - destruct (Hsend2 _ _ Hc1) as (_ & Hin2 & Hout2).
    destruct (decide (map_Exists (λ _ x, x = r) inner)) as [Hex|Hex].
    + apply map_Exists_lookup in Hex as (id & x & Hid & ->).
      rewrite Hin2 by by exists id.
      assert (Hlt : (r < length cs0)%nat)
        by (rewrite <- Hlen1; by eapply lookup_lt_Some).
      destruct (lookup_lt_is_Some_2 _ _ Hlt) as [c0 Hc0].
      destruct (Hsend1 _ _ Hc0) as (_ & Hin1 & _).
      rewrite Hin1 in Hc1 by by exists id. done.
    + apply Hout2. intros id Hid. apply Hex, map_Exists_lookup. by exists id, r.
  - apply lookup_ge_None. rewrite Hlen2. by apply lookup_ge_None.
Qed.

(** X19.  In a reachable state a second notification right after the
    first changes nothing: every registered channel is full already. *)
Theorem notifyWatchers_idempotent sf namespace :
  reachable sf →
  notifyWatchers (notifyWatchers sf namespace) namespace
  = notifyWatchers sf namespace.
Proof.
  intros Hok%reachable_ok. unfold notifyWatchers, set_registry. cbn. f_equal.
  apply notify_sends_twice, (ok_chans sf Hok).
Qed.

Lemma run_app sf tr1 tr2 :
  run sf (tr1 ++ tr2)
  = '(sf1, ids1) ← run sf tr1; '(sf2, ids2) ← run sf1 tr2; Some (sf2, ids1 ++ ids2).
Proof.
  revert sf. induction tr1 as [|o tr1 IH]; intros sf.
  - cbn. by destruct (run sf tr2) as [[? ?]|].
  - rewrite <- app_comm_cons, !run_cons.
    destruct (step sf o) as [[sf1 drawn]|]; [|done]. cbn. rewrite IH.
    destruct (run sf1 tr1) as [[sf2 ids1]|]; [|done]. cbn.
    destruct (run sf2 tr2) as [[sf3 ids2]|]; [|done]. cbn.
    by rewrite app_assoc.
Qed.

(** X20.  One wake-up for a batch of notifications: in a reachable state,
    after [n ≥ 1] notifications for its namespace a subscriber reads its
    channel once and finds it empty afterwards, so that a second read has
    to wait. *)
Theorem one_wakeup_per_batch sf namespace id notifier n :
  reachable sf →
  registered sf namespace id notifier →
  (1 ≤ n)%nat →
  (∃ sf', run sf (replicate n (OpNotify namespace) ++ [OpRead notifier])
          = Some (sf', [])
          ∧ chans sf' !! notifier = Some (mkChan 1 0))
  ∧ run sf (replicate n (OpNotify namespace) ++ [OpRead notifier; OpRead notifier])
    = None.
Proof.
  intros Hreach Hreg Hn.
  destruct (run_notifications sf namespace n) as [sf1 Hrun].
  assert (Hfull : chans sf1 !! notifier = Some (mkChan 1 1)).
  { eapply (run_fills sf _ sf1 [] namespace id notifier);
      [by apply reachable_ok|done|done| |by apply not_elem_of_nil|].
    - apply Forall_replicate. by repeat split.
    - destruct n as [|n]; [lia|]. left. }
  pose proof (lookup_lt_Some _ _ _ Hfull) as Hlt.
  rewrite !run_app, Hrun. cbn. unfold readNotifier. rewrite Hfull. cbn.
  rewrite list_lookup_insert_eq by done. cbn.
  split; [|done]. eexists. split; [done|]. cbn.
  by rewrite list_lookup_insert_eq.
Qed.

Lemma wrap_int_small z :
  - 2 ^ (int_bits - 1) ≤ z < 2 ^ (int_bits - 1) → wrap_int z = z.
Proof.
  intros Hz. unfold wrap_int. rewrite Z.mod_small; [lia|].
  unfold int_bits in *. lia.
Qed.

(** X21.  The ids drawn from a new fetcher count up from one, in the order
    in which they are drawn, as long as fewer than [2 ^ (int_bits - 1)] of
    them were drawn. *)
Theorem ids_count_up pods events namespaces tr sf ids :
  run (newStatusFetcher pods events namespaces) tr = Some (sf, ids) →
  Z.of_nat (length ids) < 2 ^ (int_bits - 1) →
  ids = Z.of_nat <$> seq 1 (length ids).
Proof.
  intros Hrun Hlen.
  apply (list_eq_same_length _ _ (length ids));
    [by rewrite length_fmap, length_seq|done|].
  intros i x y Hi Hx Hy.
  rewrite (run_draws _ _ _ _ 0 Hrun eq_refl _ _ Hx).
  rewrite list_lookup_fmap, lookup_seq_lt in Hy by done. injection Hy as <-.
  rewrite wrap_int_small; [lia|]. unfold int_bits in *. lia.
Qed.

(** *** The handlers *)

(** X22.  Every change of a pod wakes the subscribers of the namespace of
    the pod, and every change of a namespace wakes the subscribers of the
    namespace of that name: in a reachable state, after the add, update or
    delete callback for an object with metadata, the channel of such a
    subscriber holds exactly one signal, and no warning is logged. *)
Theorem callbacks_wake_subscribers sf c metadata id notifier :
  reachable sf →
  subject c = RuntimeObject (Some metadata) →
  (registered sf (om_Namespace metadata) id notifier →
     chans (deliver podHandlers c sf).1 !! notifier = Some (mkChan 1 1)
     ∧ (deliver podHandlers c sf).2 = false)
  ∧ (registered sf (om_Name metadata) id notifier →
     chans (deliver namespaceHandlers c sf).1 !! notifier = Some (mkChan 1 1)
     ∧ (deliver namespaceHandlers c sf).2 = false).
Proof.
  intros Hok%reachable_ok Hsubject.
  split; intros Hreg; destruct c as [v|old v|v]; cbn in Hsubject; subst v; cbn;
    (split; [by eapply notifyWatchers_fills|done]).
Qed.

(** X23.  A callback for a value that is no object, or for an object
    without metadata, is dropped: the fetcher stays as it is and a warning
    is logged.  The old value of an update is never looked at. *)
Theorem callbacks_drop_malformed sf c :
  (subject c = OtherValue ∨ subject c = RuntimeObject None →
     deliver podHandlers c sf = (sf, true)
     ∧ deliver namespaceHandlers c sf = (sf, true))
  ∧ (∀ old old' new,
       deliver podHandlers (OnUpdate old new) sf
       = deliver podHandlers (OnUpdate old' new) sf
       ∧ deliver namespaceHandlers (OnUpdate old new) sf
         = deliver namespaceHandlers (OnUpdate old' new) sf).
Proof.
  split; [|done].
  intros [Hsubject|Hsubject]; destruct c as [v|old v|v]; cbn in Hsubject;
    by subst v.
Qed.

End Properties.

(** ** Properties of the identity code *)

Section AuthProperties.

Context `{Verifier}.

Lemma sum_length msg : length (SHA1.sum msg) = 20%nat.
Proof.
  unfold SHA1.sum.
  by destruct (fold_left SHA1.compress _ SHA1.init) as [[[[h0 h1] h2] h3] h4].
Qed.

Lemma sum_bytes msg : Forall (λ b, 0 ≤ b < 256) (SHA1.sum msg).
Proof.
  unfold SHA1.sum.
  destruct (fold_left SHA1.compress _ SHA1.init) as [[[[h0 h1] h2] h3] h4].
  unfold SHA1.be32. repeat constructor; by apply Z.mod_pos_bound.
Qed.

Lemma hexdigit_is_hex n : is_hex (hexdigit n) = true.
Proof.
  unfold hexdigit.
  destruct (nth_in_or_default (Z.to_nat n)
              (list_ascii_of_string "0123456789abcdef") "0"%char) as [Hin| ->];
    [|done].
  revert Hin. generalize (nth (Z.to_nat n) (list_ascii_of_string "0123456789abcdef")
                              "0"%char).
  intros c Hin. cbn in Hin. by repeat destruct Hin as [<-|Hin].
Qed.

Lemma unhexdigit_hexdigit n : 0 ≤ n < 16 → unhexdigit (hexdigit n) = n.
Proof.
  intros Hn.
  assert (Hcases : Z.to_nat n ∈ seq 0 16) by (apply elem_of_seq; lia).
  assert (Hback : n = Z.of_nat (Z.to_nat n)) by lia.
  revert Hback. unfold hexdigit. generalize (Z.to_nat n) Hcases.
  intros k Hk ->. cbn in Hk.
  repeat (apply elem_of_cons in Hk as [->|Hk]; [done|]).
  by apply elem_of_nil in Hk.
Qed.

Lemma hex_chars bs :
  list_ascii_of_string (hex bs)
  = flat_map (λ b, [hexdigit (b / 16); hexdigit (b mod 16)]) bs.
Proof. unfold hex. apply list_ascii_of_string_of_list_ascii. Qed.

Lemma hex_chars_length bs :
  length (list_ascii_of_string (hex bs)) = (2 * length bs)%nat.
Proof.
  rewrite hex_chars. induction bs as [|b bs IH]; [done|].
  cbn [flat_map app length]. rewrite IH. lia.
Qed.

Lemma hex_chars_is_hex bs :
  Forall (λ c, is_hex c = true) (list_ascii_of_string (hex bs)).
Proof.
  rewrite hex_chars. induction bs as [|b bs IH]; [done|]. cbn [flat_map app].
  repeat constructor; (apply hexdigit_is_hex || done).
Qed.

(** Decoding the numeral gives the bytes back. *)
Lemma unhex_hex bs :
  Forall (λ b, 0 ≤ b < 256) bs → unhex (list_ascii_of_string (hex bs)) = bs.
Proof.
  rewrite hex_chars. induction 1 as [|b bs Hb _ IH]; [done|]. cbn [flat_map app unhex].
  rewrite IH, !unhexdigit_hexdigit; [f_equal; symmetry; by apply Z.div_mod| |].
  - by apply Z.mod_pos_bound.
  - split; [apply Z.div_pos; lia | apply Z.div_lt_upper_bound; lia].
Qed.

Lemma string_length_chars s : String.length s = length (list_ascii_of_string s).
Proof. induction s as [|c s IH]; [done|]. cbn. by rewrite IH. Qed.

Lemma is_hex_alnum c : is_hex c = true → is_alnum c = true.
Proof.
  unfold is_hex, is_alnum. cbv zeta.
  generalize (N_of_ascii c). intros n.
  rewrite !orb_true_iff, !andb_true_iff, !N.leb_le. lia.
Qed.

Lemma dns_label_of_hex s :
  (1 ≤ length (list_ascii_of_string s) ≤ 63)%nat →
  Forall (λ c, is_hex c = true) (list_ascii_of_string s) →
  is_dns1123_label s = true.
Proof.
  unfold is_dns1123_label. cbv zeta.
  generalize (list_ascii_of_string s). intros l [Hlo Hhi] Hhex.
  rewrite !andb_true_iff, !Nat.leb_le. repeat split; [done|done| | |].
  - apply forallb_forall. intros c Hc%list_elem_of_In.
    rewrite (is_hex_alnum c); [done|]. by eapply (proj1 (Forall_forall _ _) Hhex).
  - destruct l as [|c l]; [cbn in Hlo; lia|]. cbn.
    apply is_hex_alnum. by apply Forall_cons in Hhex as [? _].
  - destruct l as [|c l] using rev_ind; [cbn in Hlo; lia|].
    rewrite List.last_last. apply is_hex_alnum.
    by apply Forall_app in Hhex as [_ [? _]%Forall_cons].
Qed.

Lemma dnsCompliantHash_dns_label_aux str :
  is_dns1123_label (dnsCompliantHash str) = true.
Proof.
  apply dns_label_of_hex; [|apply hex_chars_is_hex].
  unfold dnsCompliantHash. rewrite hex_chars_length, sum_length. lia.
Qed.

(** X24.  For every string, the empty one included, [dnsCompliantHash]
    gives 40 lower-case hexadecimal digits, which is a valid DNS label and
    so a valid name of a namespace. *)
Theorem dnsCompliantHash_dns_label str :
  String.length (dnsCompliantHash str) = 40%nat
  ∧ Forall (λ c, is_hex c = true) (list_ascii_of_string (dnsCompliantHash str))
  ∧ is_dns1123_label (dnsCompliantHash str) = true.
Proof.
  assert (Hlen : length (list_ascii_of_string (dnsCompliantHash str)) = 40%nat).
  { unfold dnsCompliantHash. by rewrite hex_chars_length, sum_length. }
  assert (Hhex : Forall (λ c, is_hex c = true)
                        (list_ascii_of_string (dnsCompliantHash str)))
    by apply hex_chars_is_hex.
  split; [by rewrite string_length_chars|]. split; [done|].
  apply dns_label_of_hex; [lia|done].
Qed.

(** X25.  The hexadecimal numeral keeps the whole digest: two strings get
    the same hash only when their SHA-1 digests are the same. *)
Theorem dnsCompliantHash_keeps_digest str str' :
  dnsCompliantHash str = dnsCompliantHash str'
  ↔ SHA1.sum (bytes_of_string str) = SHA1.sum (bytes_of_string str').
Proof.
  unfold dnsCompliantHash. split; [|by intros ->].
  intros Heq. apply (f_equal (λ s, unhex (list_ascii_of_string s))) in Heq.
  by rewrite !unhex_hex in Heq by apply sum_bytes.
Qed.

(** X26.  [ParseIDToken] succeeds exactly when the token verifies and its
    claims decode.  The namespace of the user it returns is the hash of
    the id claimed, and so a valid DNS label, whatever namespace the claims
    may name; when it fails, the user is the zero value and the error says
    which of the two steps failed. *)
Theorem ParseIDToken_namespace token :
  (∀ user, ParseIDToken token = (user, None)
     ↔ ∃ idToken claimed,
         Verify token = Ok idToken ∧ Claims idToken = Ok claimed
         ∧ user = mkUser (u_ID claimed) (dnsCompliantHash (u_ID claimed)))
  ∧ (∀ user, ParseIDToken token = (user, None) →
       u_Namespace user = dnsCompliantHash (u_ID user)
       ∧ is_dns1123_label (u_Namespace user) = true)
  ∧ (∀ user err, ParseIDToken token = (user, Some err) →
       user = mkUser "" ""
       ∧ ((∃ cause, Verify token = Err cause ∧ err = Errorf "verify: %w" cause)
          ∨ (∃ idToken cause, Verify token = Ok idToken
                              ∧ Claims idToken = Err cause
                              ∧ err = Errorf "parse claims: %w" cause))).
Proof.
  unfold ParseIDToken.
  destruct (Verify token) as [idToken|cause] eqn:Hverify.
  - destruct (Claims idToken) as [claimed|cause] eqn:Hclaims.
    + split; [|split].
      * intros user. split.
        -- intros [= <-]. by exists idToken, claimed.
        -- intros (? & ? & [= <-] & Hclaims' & ->). congruence.
      * intros user [= <-]. cbn. split; [done|].
        apply dnsCompliantHash_dns_label_aux.
      * done.
    + split; [|split].
      * intros user. split; [done|].
        intros (? & ? & [= <-] & Hclaims' & _). congruence.
      * done.
      * intros user err [= <- <-]. split; [done|]. right. by exists idToken, cause.
  - split; [|split].
    + intros user. split; [done|]. by intros (? & ? & ? & _).
    + done.
    + intros user err [= <- <-]. split; [done|]. left. by exists cause.
Qed.

End AuthProperties.

(** ** The properties on the sample data *)

Section Samples.

Import Sample.

Local Existing Instance externals.

(** The three event lists of the specification. *)
Example isPulling_started :
  isPulling (fetcher [] [] [pulling 10]) "sandbox" "web" "spec.containers{web}" = true.
Proof. reflexivity. Qed.

Example isPulling_completed :
  isPulling (fetcher [] [] [pulling 10; pulled 20])
            "sandbox" "web" "spec.containers{web}" = false.
Proof. reflexivity. Qed.

Example isPulling_started_again :
  isPulling (fetcher [] [] [pulling 30; pulled 20])
            "sandbox" "web" "spec.containers{web}" = true.
Proof. reflexivity. Qed.

Lemma isPulling_follows_rule_sample :
  isPulling (fetcher [] [] [pulled 20; pulling 10; pulling 30])
            "sandbox" "web" "spec.containers{web}"
  = isPulling_rule "sandbox" "web" "spec.containers{web}"
                   [pulled 20; pulling 10; pulling 30].
Proof.
  apply (isPulling_follows_rule
           (fetcher [] [] [pulled 20; pulling 10; pulling 30])
           "sandbox" "web" "spec.containers{web}"
           [pulled 20; pulling 10; pulling 30]).
  - reflexivity.
  - vm_compute. repeat constructor; discriminate.
  - vm_compute. repeat constructor; discriminate.
Defined.

(** C1 as the specification words it fails on a "Pulling" event that
    carries the zero time: the rule sees a pull that started and never
    completed, the code sees no pull at all. *)
Lemma isPulling_zero_timestamp :
  eventsLister (fetcher [] [] [pulling 0]) "sandbox" Everything = Ok [pulling 0]
  ∧ isPulling_rule "sandbox" "web" "spec.containers{web}" [pulling 0] = true
  ∧ isPulling (fetcher [] [] [pulling 0]) "sandbox" "web" "spec.containers{web}"
    = false.
Proof. by vm_compute. Qed.

Lemma getServiceStatus_first_blocking_init_sample :
  getServiceStatus (fetcher [active] [blocked_pod] []) blocked_pod
  = mkServiceStatus ServicePhase_WAIT_DEPENDS_ON
      "Unexpected system error: exit status 1" false.
Proof.
  destruct (getServiceStatus_first_blocking_init
              (fetcher [active] [blocked_pod] []) blocked_pod
              [succeeded "copy-busybox"]
              (crashed "wait-depends-on" "exit status 1")
              [waiting "wait-initial-sync" "PodInitializing" "" 0])
    as (_ & _ & Hterminated).
  - reflexivity.
  - repeat constructor. by eexists.
  - intros (t & Ht & Hreason). injection Ht as <-. discriminate.
  - by apply (Hterminated (mkTerminated "Error" "exit status 1")).
Defined.

Lemma getServiceStatus_image_pull_failure_sample :
  getServiceStatus (fetcher [active] [] []) pull_failed_init_pod
  = mkServiceStatus ServicePhase_PENDING imagePullFailureMsg false
  ∧ getServiceStatus (fetcher [active] [] []) (pull_failed_pod 7)
    = mkServiceStatus ServicePhase_PENDING imagePullFailureMsg false.
Proof.
  split.
  - apply (getServiceStatus_image_pull_failure
             (fetcher [active] [] []) pull_failed_init_pod
             (waiting "initialize-volume-from-image" "ErrImagePull" "not found" 0)
             (mkWaiting "ErrImagePull" "not found")).
    + reflexivity.
    + by left.
    + left. exists [succeeded "copy-busybox"], [].
      repeat split. repeat constructor. by eexists.
  - apply (getServiceStatus_image_pull_failure
             (fetcher [active] [] []) (pull_failed_pod 7)
             (waiting "web" "ImagePullBackOff" "back-off" 7)
             (mkWaiting "ImagePullBackOff" "back-off")).
    + reflexivity.
    + by right.
    + right. repeat split. repeat constructor. by eexists.
Defined.

Lemma getServiceStatus_phase_fallback_sample :
  getServiceStatus (fetcher [active] [] [])
    (pod "job" [succeeded "copy-busybox"] [stateless "job"] "Succeeded")
  = mkServiceStatus ServicePhase_EXITED "" false
  ∧ getServiceStatus (fetcher [active] [] [])
      (pod "pair" [] [running "a" true; running "b" true] "Evicted")
    = mkServiceStatus ServicePhase_UNKNOWN "" false.
Proof.
  split.
  - destruct (getServiceStatus_phase_fallback (fetcher [active] [] [])
                (pod "job" [succeeded "copy-busybox"] [stateless "job"] "Succeeded"))
      as (_ & _ & Hexited & _).
    + repeat constructor. by eexists.
    + right. by exists (stateless "job").
    + apply Hexited. by left.
  - destruct (getServiceStatus_phase_fallback (fetcher [active] [] [])
                (pod "pair" [] [running "a" true; running "b" true] "Evicted"))
      as (_ & _ & _ & Hunknown).
    + constructor.
    + left. cbn. lia.
    + by apply Hunknown.
Defined.

Lemma Get_errors_sample :
  Get (fetcher [] [] []) "sandbox"
  = (mkSandboxStatus SandboxStatus_DOES_NOT_EXIST ∅, None)
  ∧ Get unreachable "sandbox"
    = (SandboxStatus_zero, Some (WithContext "get sandbox" "connection refused"))
  ∧ Get (no_pods [active]) "sandbox"
    = (SandboxStatus_zero, Some (WithContext "get services" "connection refused")).
Proof.
  split; [|split].
  - by apply (proj1 (Get_errors (fetcher [] [] []) "sandbox") "NotFound").
  - by apply (proj1 (proj2 (Get_errors unreachable "sandbox")) "connection refused").
  - by apply (proj2 (proj2 (Get_errors (no_pods [active]) "sandbox"))
                active "connection refused").
Defined.

Lemma Get_terminating_sample :
  Get (fetcher [terminating] [web_pod; db_pod] []) "sandbox"
  = (mkSandboxStatus SandboxStatus_TERMINATING ∅, None)
  ∧ sb_Phase (Get (fetcher [active] [web_pod; db_pod] []) "sandbox").1
    = SandboxStatus_RUNNING.
Proof.
  split.
  - by apply (proj1 Get_terminating
                (fetcher [terminating] [web_pod; db_pod] []) "sandbox" terminating).
  - apply (proj2 Get_terminating (fetcher [active] [web_pod; db_pod] []) "sandbox").
    intros Hempty. apply (f_equal (λ services, services !! "db")) in Hempty.
    vm_compute in Hempty. discriminate.
Defined.

Lemma Get_running_sample :
  ∃ services,
    Get (fetcher [active] store []) "sandbox"
    = (mkSandboxStatus SandboxStatus_RUNNING services, None)
    ∧ (is_Some (services !! "db") ∧ is_Some (services !! "web")
       ∧ is_Some (services !! "") ∧ services !! "proxy" = None).
Proof.
  destruct (Get_running (fetcher [active] store []) "sandbox" active
              [web_pod; unlabelled "tmp" "Pending"; db_pod; web_pod_unready])
    as (services & HGet & Hkeys & _ & _).
  - reflexivity.
  - discriminate.
  - reflexivity.
  - exists services. split; [done|]. repeat split.
    + apply Hkeys. exists db_pod. split; [|done]. do 2 right. left.
    + apply Hkeys. exists web_pod. split; [|done]. left.
    + apply Hkeys. exists (unlabelled "tmp" "Pending"). split; [|done]. right. left.
    + apply eq_None_not_Some. intros (pod & Hpod & Hname)%Hkeys.
      apply list_elem_of_In in Hpod. cbn [In] in Hpod.
      destruct Hpod as [<-|[<-|[<-|[<-|[]]]]]; vm_compute in Hname; discriminate.
Defined.

Lemma Get_services_last_wins_sample :
  ∃ services,
    Get (fetcher [active] store []) "sandbox"
    = (mkSandboxStatus SandboxStatus_RUNNING services, None)
    ∧ size services = 3%nat
    ∧ services !! "web" = Some (mkServiceStatus ServicePhase_UNHEALTHY "" true)
    ∧ services !! "" = Some (mkServiceStatus ServicePhase_PENDING "" false).
Proof.
  destruct (Get_services_last_wins (fetcher [active] store []) "sandbox" active
              [web_pod; unlabelled "tmp" "Pending"; db_pod; web_pod_unready])
    as (services & HGet & _ & Hsize & Hlast & _).
  - reflexivity.
  - discriminate.
  - reflexivity.
  - exists services. split; [done|]. repeat split.
    + by rewrite Hsize.
    + by apply (Hlast [web_pod; unlabelled "tmp" "Pending"; db_pod]
                      web_pod_unready []).
    + apply (Hlast [web_pod] (unlabelled "tmp" "Pending") [db_pod; web_pod_unready]);
        [done|]. by repeat constructor.
Defined.

Lemma subscribed_reachable : reachable subscribed.
Proof.
  exists (@storePodLister externals []), (@storeEventLister externals []),
         (@storeNamespaceLister externals "NotFound" [active]),
         [OpWatch "sandbox"], [1].
  reflexivity.
Qed.

(** Three notifications in a row leave one signal in the channel of the
    subscriber. *)
Lemma notify_coalesces_sample :
  ∃ sf', run subscribed (replicate 3 (OpNotify "sandbox")) = Some (sf', [])
         ∧ chans sf' !! 0%nat = Some (mkChan 1 1).
Proof.
  apply (notify_coalesces subscribed "sandbox" 1 0%nat 3).
  - apply subscribed_reachable.
  - reflexivity.
  - lia.
Defined.

(** The same with an unrelated watch in between. *)
Example interleaved_notifications :
  ∃ sf', run subscribed [OpNotify "sandbox"; OpNotify "sandbox"; OpWatch "other";
                         OpNotify "sandbox"] = Some (sf', [2])
         ∧ chans sf' !! 0%nat = Some (mkChan 1 1)
         ∧ chans sf' !! 1%nat = Some (mkChan 1 0).
Proof. eexists. by repeat split. Qed.

(** A watch that is stopped at once: the entry of the namespace is gone,
    and a later notification runs and changes no channel. *)
Example watch_then_stop :
  watchers (removeWatcher subscribed "sandbox" 1).1 !! "sandbox" = None
  ∧ chans (notifyWatchers (removeWatcher subscribed "sandbox" 1).1 "sandbox")
    = [mkChan 1 0].
Proof. by vm_compute. Qed.

Lemma registry_invariants_sample :
  NoDup [1; 2; 3]
  ∧ watchers (removeWatcher subscribed "sandbox" 1).1 !! "sandbox" = None
  ∧ removeWatcher (fetcher [active] [] []) "sandbox" 1
    = (fetcher [active] [] [], true).
Proof.
  split; [|split].
  - apply (registry_invariants
             (@storePodLister externals []) (@storeEventLister externals [])
             (@storeNamespaceLister externals "NotFound" [active])
             [OpWatch "sandbox"; OpNotify "sandbox"; OpAllocId; OpWatch "other";
              OpRemove "sandbox" 1]
             (removeWatcher
                (Watch (allocId (notifyWatchers subscribed "sandbox")).1 "other").1.1
                "sandbox" 1).1
             [1; 2; 3]).
    + reflexivity.
    + by vm_compute.
  - apply (registry_invariants
             (@storePodLister externals []) (@storeEventLister externals [])
             (@storeNamespaceLister externals "NotFound" [active])
             [OpWatch "sandbox"] subscribed [1]); [reflexivity|].
    by vm_compute.
  - by apply (registry_invariants
             (@storePodLister externals []) (@storeEventLister externals [])
             (@storeNamespaceLister externals "NotFound" [active])
             [] (fetcher [active] [] []) []).
Defined.

(** C9 as the specification words it fails once the counter has wrapped
    around: a run of [2 ^ 64 + 1] calls of [Watch] draws the id of its
    first call a second time. *)
Lemma watch_ids_repeat :
  ∃ sf ids,
    run (fetcher [] [] []) (replicate (N.to_nat (2 ^ 64 + 1)) (OpWatch "sandbox"))
    = Some (sf, ids)
    ∧ ¬ NoDup ids.
Proof.
  destruct (run_watch_calls (fetcher [] [] []) "sandbox" (N.to_nat (2 ^ 64 + 1)))
    as (sf & ids & Hrun & Hlen).
  exists sf, ids. split; [done|].
  by eapply (watch_ids_wrap_around (fetcher [] [] [])).
Qed.

(** *** More properties on the sample data *)

Lemma isPulling_ignores_other_events_sample :
  isPulling (fetcher [] [] [pulling 30; pulled 20])
            "sandbox" "web" "spec.containers{web}"
  = isPulling (fetcher [] [] noisy_events) "sandbox" "web" "spec.containers{web}".
Proof.
  apply (isPulling_ignores_other_events (fetcher [] [] noisy_events)
           (fetcher [] [] [pulling 30; pulled 20])
           "sandbox" "web" "spec.containers{web}" noisy_events);
    reflexivity.
Defined.

Lemma isPulling_order_independent_sample :
  isPulling (fetcher [] [] [pulled 20; pulling 0; pulling 30])
            "sandbox" "web" "spec.containers{web}"
  = isPulling (fetcher [] [] [pulling 0; pulled 20; pulling 30])
              "sandbox" "web" "spec.containers{web}".
Proof.
  apply (isPulling_order_independent
           (fetcher [] [] [pulling 0; pulled 20; pulling 30])
           (fetcher [] [] [pulled 20; pulling 0; pulling 30])
           "sandbox" "web" "spec.containers{web}"
           [pulling 0; pulled 20; pulling 30] [pulled 20; pulling 0; pulling 30]).
  - reflexivity.
  - reflexivity.
  - apply perm_swap.
  - vm_compute. repeat constructor; discriminate.
  - vm_compute. repeat constructor; discriminate.
Defined.

Lemma isPulling_true_iff_sample :
  isPulling (fetcher [] [] [pulling 0; pulled 20; pulling 30])
            "sandbox" "web" "spec.containers{web}" = true.
Proof.
  apply (isPulling_true_iff (fetcher [] [] [pulling 0; pulled 20; pulling 30])
           "sandbox" "web" "spec.containers{web}"
           [pulling 0; pulled 20; pulling 30]).
  - reflexivity.
  - vm_compute. repeat constructor; discriminate.
  - vm_compute. repeat constructor; discriminate.
  - exists 30. split; [|split].
    + vm_compute. right. left.
    + lia.
    + intros t Ht. vm_compute in Ht. apply list_elem_of_In in Ht.
      destruct Ht as [<-|[]]. lia.
Defined.

Lemma getServiceStatus_started_sample :
  Forall completed (pod_InitContainerStatuses restarting_pod)
  ∧ ∃ cs, pod_ContainerStatuses restarting_pod = [cs]
          ∧ (is_Some (Running (cs_State cs))
             ∨ is_Some (Terminated (cs_State cs))
             ∨ 0 < cs_RestartCount cs).
Proof.
  apply (getServiceStatus_started (fetcher [active] [] []) restarting_pod).
  reflexivity.
Defined.

Lemma getServiceStatus_after_init_sample :
  Phase (getServiceStatus (fetcher [active] [] []) (pull_failed_pod 0)) ∈
    [ServicePhase_RUNNING; ServicePhase_UNHEALTHY; ServicePhase_PENDING;
     ServicePhase_EXITED; ServicePhase_UNKNOWN].
Proof.
  apply (getServiceStatus_after_init (fetcher [active] [] []) (pull_failed_pod 0)).
  repeat constructor. by eexists.
Defined.

Lemma getServiceStatus_running_container_sample :
  getServiceStatus (fetcher [active] [] []) web_pod_unready
  = mkServiceStatus ServicePhase_UNHEALTHY "" true.
Proof.
  apply (getServiceStatus_running_container (fetcher [active] [] [])
           web_pod_unready (running "web" false)).
  - constructor.
  - reflexivity.
  - by eexists.
Defined.

Lemma getServiceStatus_waiting_container_sample :
  Phase (getServiceStatus (fetcher [active] [] []) restarting_pod)
  = ServicePhase_PENDING
  ∧ HasStarted (getServiceStatus (fetcher [active] [] []) restarting_pod) = true.
Proof.
  destruct (getServiceStatus_waiting_container (fetcher [active] [] [])
              restarting_pod (waiting "web" "CrashLoopBackOff" "back-off 10s" 3)
              (mkWaiting "CrashLoopBackOff" "back-off 10s"))
    as (Hphase & Hstarted & _).
  - constructor.
  - reflexivity.
  - reflexivity.
  - reflexivity.
  - split; [done|]. by rewrite Hstarted.
Defined.

Lemma getServiceStatus_other_init_container_sample :
  getServiceStatus (fetcher [active] [] []) waiting_for_dependencies
  = mkServiceStatus ServicePhase_WAIT_DEPENDS_ON "" false.
Proof.
  apply (getServiceStatus_other_init_container (fetcher [active] [] [])
           waiting_for_dependencies [succeeded "copy-busybox"]
           (waiting "wait-depends-on" "ErrImagePull" "" 0) []).
  - reflexivity.
  - repeat constructor. by eexists.
  - reflexivity.
  - discriminate.
Defined.

Lemma getServiceStatus_events_only_sample :
  getServiceStatus two_watchers restarting_pod
  = getServiceStatus (fetcher [terminating] [web_pod] []) restarting_pod.
Proof.
  by apply (proj1 (getServiceStatus_events_only (fetcher [terminating] [web_pod] [])
                     two_watchers restarting_pod eq_refl)).
Defined.

Lemma Get_unaffected_by_registry_sample :
  Get two_watchers "sandbox" = Get (fetcher [active] [] []) "sandbox".
Proof.
  by apply (Get_unaffected_by_registry (fetcher [active] [] [])
              [OpWatch "sandbox"; OpWatch "other"] two_watchers [1; 2]).
Defined.

Lemma Get_error_iff_sample :
  (Get (no_pods [active]) "sandbox").1 = SandboxStatus_zero.
Proof.
  apply (proj2 (Get_error_iff (no_pods [active]) "sandbox")).
  apply (proj2 (proj1 (Get_error_iff (no_pods [active]) "sandbox"))).
  right. by exists active, "connection refused".
Defined.

Lemma Get_order_independent_sample :
  Get (fetcher [active] [db_pod; web_pod] []) "sandbox"
  = Get (fetcher [active] [web_pod; db_pod] []) "sandbox".
Proof.
  apply (Get_order_independent (fetcher [active] [web_pod; db_pod] [])
           (fetcher [active] [db_pod; web_pod] []) "sandbox"
           [web_pod; db_pod] [db_pod; web_pod]).
  - reflexivity.
  - reflexivity.
  - reflexivity.
  - reflexivity.
  - apply perm_swap.
  - apply (bool_decide_unpack _). by vm_compute.
Defined.

Lemma new_fetcher_reachable : reachable (fetcher [active] [] []).
Proof.
  exists (@storePodLister externals []), (@storeEventLister externals []),
         (@storeNamespaceLister externals "NotFound" [active]), [], [].
  reflexivity.
Qed.

Lemma two_watchers_reachable : reachable two_watchers.
Proof.
  exists (@storePodLister externals []), (@storeEventLister externals []),
         (@storeNamespaceLister externals "NotFound" [active]),
         [OpWatch "sandbox"; OpWatch "other"], [1; 2].
  reflexivity.
Qed.

Lemma Watch_fresh_channel_sample :
  registered subscribed "sandbox" 1 0
  ∧ chans subscribed !! 0%nat = Some (mkChan 1 0)
  ∧ readNotifier subscribed 0 = None.
Proof.
  destruct (Watch_fresh_channel (fetcher [active] [] []) "sandbox" subscribed 0%nat 1)
    as (_ & Hreg & _ & Hchan & Hread & _).
  - apply new_fetcher_reachable.
  - reflexivity.
  - by split; [|split].
Defined.

Lemma Watch_then_remove_sample :
  watchers (removeWatcher two_watchers "other" 2).1 = watchers subscribed.
Proof.
  apply (Watch_then_remove subscribed "other" two_watchers 1%nat 2).
  - apply subscribed_reachable.
  - reflexivity.
  - reflexivity.
Defined.

Lemma notifyWatchers_other_namespace_sample :
  chans (notifyWatchers two_watchers "sandbox") !! 1%nat = chans two_watchers !! 1%nat.
Proof.
  apply (notifyWatchers_other_namespace two_watchers "sandbox" "other" 2 1%nat).
  - apply two_watchers_reachable.
  - reflexivity.
  - discriminate.
Defined.

Lemma removed_watcher_not_notified_sample :
  chans (notifyWatchers (removeWatcher two_watchers "sandbox" 1).1 "sandbox") !! 0%nat
  = chans two_watchers !! 0%nat.
Proof.
  apply (removed_watcher_not_notified two_watchers "sandbox" 1 0%nat).
  - apply two_watchers_reachable.
  - reflexivity.
Defined.

Lemma notifyWatchers_idempotent_sample :
  notifyWatchers (notifyWatchers two_watchers "sandbox") "sandbox"
  = notifyWatchers two_watchers "sandbox".
Proof.
  apply (notifyWatchers_idempotent two_watchers "sandbox").
  apply two_watchers_reachable.
Defined.

Lemma one_wakeup_per_batch_sample :
  run two_watchers (replicate 3 (OpNotify "sandbox") ++ [OpRead 0%nat; OpRead 0%nat])
  = None.
Proof.
  apply (one_wakeup_per_batch two_watchers "sandbox" 1 0%nat 3).
  - apply two_watchers_reachable.
  - reflexivity.
  - lia.
Defined.

Lemma ids_count_up_sample : [1; 2; 3] = Z.of_nat <$> seq 1 3.
Proof.
  apply (ids_count_up (@storePodLister externals []) (@storeEventLister externals [])
           (@storeNamespaceLister externals "NotFound" [active])
           [OpWatch "sandbox"; OpAllocId; OpNotify "sandbox"; OpWatch "other"]
           (Watch (notifyWatchers (allocId subscribed).1 "sandbox") "other").1.1
           [1; 2; 3]).
  - reflexivity.
  - by vm_compute.
Defined.

Lemma callbacks_wake_subscribers_sample :
  chans (deliver podHandlers
           (OnUpdate OtherValue
              (RuntimeObject (Some (mkObjectMeta "sandbox" "web"))))
           two_watchers).1 !! 0%nat = Some (mkChan 1 1)
  ∧ chans (deliver namespaceHandlers
             (OnDelete (RuntimeObject (Some (mkObjectMeta "" "other"))))
             two_watchers).1 !! 1%nat = Some (mkChan 1 1).
Proof.
  split.
  - apply (proj1 (callbacks_wake_subscribers two_watchers
                    (OnUpdate OtherValue
                       (RuntimeObject (Some (mkObjectMeta "sandbox" "web"))))
                    (mkObjectMeta "sandbox" "web") 1 0%nat
                    two_watchers_reachable eq_refl)).
    reflexivity.
  - apply (proj2 (callbacks_wake_subscribers two_watchers
                    (OnDelete (RuntimeObject (Some (mkObjectMeta "" "other"))))
                    (mkObjectMeta "" "other") 2 1%nat
                    two_watchers_reachable eq_refl)).
    reflexivity.
Defined.

Lemma callbacks_drop_malformed_sample :
  deliver podHandlers (OnDelete OtherValue) two_watchers = (two_watchers, true)
  ∧ deliver namespaceHandlers (OnAdd (RuntimeObject None)) two_watchers
    = (two_watchers, true).
Proof.
  split.
  - apply (proj1 (callbacks_drop_malformed two_watchers (OnDelete OtherValue))).
    by left.
  - apply (proj1 (callbacks_drop_malformed two_watchers (OnAdd (RuntimeObject None)))).
    by right.
Defined.

(** Digests of the standard test messages of SHA-1. *)
Example dnsCompliantHash_empty :
  dnsCompliantHash "" = "da39a3ee5e6b4b0d3255bfef95601890afd80709".
Proof. by vm_compute. Qed.

Example dnsCompliantHash_abc :
  dnsCompliantHash "abc" = "a9993e364706816aba3e25717850c26c9cd0d89d".
Proof. by vm_compute. Qed.

Example dnsCompliantHash_two_blocks :
  dnsCompliantHash "abcdbcdecdefdefgefghfghighijhijkijkljklmklmnlmnomnopnopq"
  = "84983e441c3bd26ebaae4aa1f95129e5e54670f1".
Proof. by vm_compute. Qed.

Lemma ParseIDToken_namespace_sample :
  (u_Namespace (@ParseIDToken verifier "abc").1
   = dnsCompliantHash (u_ID (@ParseIDToken verifier "abc").1)
   ∧ is_dns1123_label (u_Namespace (@ParseIDToken verifier "abc").1) = true)
  ∧ (@ParseIDToken verifier "").1 = mkUser "" "".
Proof.
  split.
  - by apply (proj1 (proj2 (@ParseIDToken_namespace verifier "abc"))
                (@ParseIDToken verifier "abc").1).
  - by apply (proj2 (proj2 (@ParseIDToken_namespace verifier ""))
                (@ParseIDToken verifier "").1
                (@Errorf verifier "verify: %w" "malformed token")).
Defined.

(** The claims of the sample verifier name the namespace kube-system; the
    user gets the hash of the id all the same. *)
Example ParseIDToken_overrides_namespace :
  @Claims verifier "abc" = Ok (mkUser "abc" "kube-system")
  ∧ @ParseIDToken verifier "abc"
    = (mkUser "abc" "a9993e364706816aba3e25717850c26c9cd0d89d", None).
Proof. by vm_compute. Qed.

End Samples.
